(** * virial.py: potential of mean force, tail splicing and the second
    virial coefficient

  A shallow embedding of [virial.py] and the properties of its loader,
  range selection, fit step, curve merging and virial integration.

  Number model.  The program computes with numpy [float64] arrays.  They
  are embedded as lists of real numbers ([R] of the Standard Library):
  exact arithmetic, no rounding, no overflow.  The two places where the
  program can leave the finite numbers without raising anything are kept
  visible: a division of one float by another whose divisor is zero
  ([np.true_divide] below) and the logarithm outside its domain (see
  [np.log]).

  Control.  A computation ends normally, ends the process through
  [sys.exit(message)], or ends with an uncaught Python exception; this
  is the type [outcome]. *)

From Stdlib Require Import Reals Lra Lia List.
From stdpp Require Import gmap strings sorting.
Import ListNotations.

Local Open Scope R_scope.

(** ** Outcomes of a computation *)

Inductive outcome (A : Type) : Type :=
| Ok (a : A)            (* normal completion with a value *)
| Exit (msg : string)   (* [sys.exit(msg)] *)
| Raise (exc : string). (* uncaught exception, named by its class *)

Arguments Ok {A} a.
Arguments Exit {A} msg.
Arguments Raise {A} exc.

#[global] Instance outcome_ret : MRet outcome := fun A a => Ok a.

#[global] Instance outcome_bind : MBind outcome := fun A B k m =>
match m with
| Ok a => k a
| Exit msg => Exit msg
| Raise exc => Raise exc
end.

Definition succeeds {A} (m : outcome A) : Prop := exists a, m = Ok a.

(** ** Comparisons of floats as decisions *)

#[global] Instance Rle_decision (x y : R) : Decision (x <= y) := Rle_dec x y.
#[global] Instance Rlt_decision (x y : R) : Decision (x < y) := Rlt_dec x y.
#[global] Instance Rge_decision (x y : R) : Decision (x >= y) := Rge_dec x y.
#[global] Instance Rgt_decision (x y : R) : Decision (x > y) := Rgt_dec x y.
#[global] Instance Req_decision : EqDecision R := Req_dec_T.

(** ** Python sequences *)

Module py.

(** [xs[i]] for a non-negative literal index [i]. *)
Definition getitem (xs : list R) (i : nat) : outcome R :=
  match xs !! i with
  | Some x => Ok x
  | None => Raise "IndexError"
  end.

(** [xs[-1]]. *)
Definition getitem_last (xs : list R) : outcome R :=
  match last xs with
  | Some x => Ok x
  | None => Raise "IndexError"
  end.

(** [xs[-1] = v] on an array that has a last element. *)
Definition setitem_last (xs : list R) (v : R) : list R :=
  <[pred (length xs) := v]> xs.

(** The builtin [min]: the first element, replaced by each later one that
    compares strictly smaller. *)
Definition min (xs : list R) : outcome R :=
  match xs with
  | [] => Raise "ValueError"
  | x :: rest =>
      Ok (fold_left (fun m y => if decide (y < m) then y else m) rest x)
  end.

(** The builtin [max], alike with [>]. *)
Definition max (xs : list R) : outcome R :=
  match xs with
  | [] => Raise "ValueError"
  | x :: rest =>
      Ok (fold_left (fun m y => if decide (y > m) then y else m) rest x)
  end.

End py.

(** ** The numpy operations the program uses, on one-dimensional arrays *)

Module np.

(** An elementwise binary operation with numpy's broadcasting of a
    one-element array against a longer one. *)
Definition broadcast (f : R -> R -> R) (xs ys : list R)
  : outcome (list R) :=
  if decide (length xs = length ys) then Ok (zip_with f xs ys)
  else match xs, ys with
       | [x], _ => Ok (map (f x) ys)
       | _, [y] => Ok (map (fun x => f x y) xs)
       | _, _ => Raise "ValueError"
       end.

Definition add := broadcast Rplus.
Definition multiply := broadcast Rmult.

(** [np.log]: elementwise.  At an element [x <= 0] numpy gives [-inf]
    (for zero) or [nan] (below zero) and a warning, never an exception;
    the real-number array holds [ln x] there, which stands for a value
    that is not a finite number.  Statements about the logarithm of an
    element are made where the element is positive. *)
Definition log (xs : list R) : list R := map ln xs.

Definition exp (xs : list R) : list R := map Rtrigo_def.exp xs.

Definition negative (xs : list R) : list R := map Ropp xs.

(** [xs - c] and [c * xs] and [xs ** n] for a scalar [c] and a literal
    exponent [n]. *)
Definition subtract_scalar (xs : list R) (c : R) : list R :=
  map (fun x => x - c) xs.
Definition scalar_multiply (c : R) (xs : list R) : list R :=
  map (fun x => c * x) xs.
Definition divide_scalar (xs : list R) (c : R) : list R :=
  map (fun x => x / c) xs.
Definition power (xs : list R) (n : nat) : list R :=
  map (fun x => x ^ n) xs.

(** [xs[1:]] and [xs[:-1]]. *)
Definition from_1 (xs : list R) : list R := tail xs.
Definition upto_last (xs : list R) : list R := removelast xs.

(** [np.diff(x)]: [x[1:] - x[:-1]]. *)
Definition diff (x : list R) : list R :=
  zip_with Rminus (from_1 x) (upto_last x).

Definition sum (xs : list R) : R := foldr Rplus 0 xs.

(** [np.trapz(y, x)]:
    [d = diff(x); ret = (d * (y[1:] + y[:-1]) / 2.0).sum()]. *)
Definition trapz (y x : list R) : outcome R :=
  let d := diff x in
  s ← add (from_1 y) (upto_last y);
  p ← multiply d s;
  Ok (sum (divide_scalar p 2)).

(** [xs[mask]] for a boolean mask: the elements at the positions where
    the mask is true, in order; the mask must have the length of [xs]. *)
Definition getitem_mask (xs : list R) (mask : list bool)
  : outcome (list R) :=
  if decide (length mask = length xs)
  then Ok (fst <$> filter (fun p => snd p = true) (zip xs mask))
  else Raise "IndexError".

Definition less_equal_scalar (xs : list R) (c : R) : list bool :=
  map (fun x => bool_decide (x <= c)) xs.
Definition greater_equal_scalar (xs : list R) (c : R) : list bool :=
  map (fun x => bool_decide (x >= c)) xs.
Definition logical_and (m1 m2 : list bool) : list bool :=
  zip_with andb m1 m2.

(** Ceiling of a real number, as an integer. *)
Definition ceil (x : R) : Z := (1 - up (- x))%Z.

(** [np.arange(start, stop, step)] on floats: [ceil((stop - start)/step)]
    values [start + i*step], none when that count is not positive.  With
    a zero step the count cannot be computed and numpy raises. *)
Definition arange (start stop step : R) : outcome (list R) :=
  if decide (step = 0) then Raise "ValueError"
  else
    let n := Z.to_nat (ceil ((stop - start) / step)) in
    Ok (map (fun i => start + INR i * step) (seq 0 n)).

Definition concatenate (xs ys : list R) : list R := xs ++ ys.

(** What [np.loadtxt] hands back: an array of zero, one or two
    dimensions.  A two-dimensional array is its shape and its entries. *)
Inductive ndarray : Type :=
| Scalar (x : R)
| Array1 (xs : list R)
| Array2 (nrows ncols : nat) (entry : nat -> nat -> R).

Definition shape (d : ndarray) : list nat :=
  match d with
  | Scalar _ => []
  | Array1 xs => [length xs]
  | Array2 nrows ncols _ => [nrows; ncols]
  end.

(** [d[:,j]]. *)
Definition column (d : ndarray) (j : nat) : outcome (list R) :=
  match d with
  | Array2 nrows ncols entry =>
      if decide (j < ncols)%nat
      then Ok (map (fun i => entry i j) (seq 0 nrows))
      else Raise "IndexError"
  | _ => Raise "IndexError"
  end.

(** A float divided by a float.  numpy does not raise on a zero divisor:
    it warns and the quotient is [inf] or [nan]. *)
Inductive float : Type :=
| Finite (x : R)
| NotFinite.

Definition true_divide (x y : R) : float :=
  if decide (y = 0) then NotFinite else Finite (x / y).

(** [xs / ys], elementwise.  At a zero divisor numpy gives [inf] or [nan]
  and a warning, never an exception; the real-number array holds a
  stand-in there, and statements about a quotient are made where the
  divisor is not zero. *)
Definition divide := broadcast Rdiv.

(** [xs ** n] for an integer [n], negative ones included. *)
Definition power_int (xs : list R) (n : Z) : list R :=
  map (fun x => powerRZ x n) xs.

(** [np.transpose((a, b, c))] for three arrays: the table whose rows are
  [(a_i, b_i, c_i)].  Arrays of different lengths make no table; the
  numpy of the program's time then fails when the table is written. *)
Definition transpose3 (a b c : list R) : outcome (list (list R)) :=
  if decide (length a = length b /\ length b = length c)
  then Ok (zip_with (fun x yz => x :: yz)
             a (zip_with (fun y z => [y; z]) b c))
  else Raise "TypeError".

End np.

(** ** The file system, as far as the loader looks at it

  [None]: no regular file of that name.  Otherwise what [np.loadtxt]
  does on the file: the array it parses, or the exception it raises. *)

Definition filesystem := string -> option (outcome np.ndarray).

(** ** class RadialDistributionFunction *)

Module RadialDistributionFunction.

Record t : Type := mk { r : list R; g : list R; w : list R }.

Definition init (fs : filesystem) (filename : string) : outcome t :=
  let failure :=
    Exit ("Error loading g(r) from " +:+ filename +:+
          " -- file does not exist or wrong format.") in
  match fs filename with
  | Some loaded =>
      d ← loaded;
      match np.shape d !! 1%nat with
      | None => Raise "IndexError"
      | Some ncols =>
          if decide (ncols = 2%nat) then
            r ← np.column d 0;
            g ← np.column d 1;
            Ok (mk r g (np.negative (np.log g)))
          else failure
      end
  | None => failure
  end.

Definition slice (self : t) (rmin rmax : R)
  : outcome (list R * list R) :=
  let m := np.logical_and (np.greater_equal_scalar (r self) rmin)
                          (np.less_equal_scalar (r self) rmax) in
  rs ← np.getitem_mask (r self) m;
  gs ← np.getitem_mask (g self) m;
  Ok (rs, gs).

Definition normalizeVolume (self : t) (dim : Z) : outcome t :=
  g' ← np.divide (g self) (np.power_int (r self) (dim - 1));
  Ok (mk (r self) g' (np.negative (np.log g'))).

End RadialDistributionFunction.


(** ** The dictionary that [VirialCoefficient] returns

  Keys are strings; a value is a float or a list of floats. *)

Inductive value : Type :=
| Number (x : np.float)
| Numbers (xs : list R).

(** A model potential [pot(r, *a)]: from the array of distances and the
  parameters to the array of energies, or an exception. *)

Definition potential := list R -> list R -> outcome (list R).

(** The built-in potential ['zero']: ['r*0 + a[0]']. *)

Definition pot_zero : potential := fun r a =>
  a0 ← py.getitem a 0;
  Ok (map (fun x => x * 0 + a0) r).

Section Program.

(** [scipy.constants.N_A], Avogadro's number; its digits depend on the
  scipy release and no statement below depends on them. *)
Variable N_A : R.

(** The potential that [exec 'def pot(r,*a): return '+args.pot] defines. *)
Variable pot : potential.

(** The Levenberg-Marquardt iteration of MINPACK behind
  [scipy.optimize.leastsq]: the parameters it converges to, or the
  exception raised when it does not. *)
Variable minpack :
  potential -> list R -> list R -> list R -> outcome (list R).

Definition VirialCoefficient (r w : list R) (mw : R * R)
  : outcome (gmap string value) :=
  let b2 : gmap string value := ∅ in
  rmin ← py.min r;
  let hs := 2 * PI / 3 * rmin ^ 3 in
  let b2 := <["hs" := Number (np.Finite hs)]> b2 in
  y ← np.multiply
        (np.scalar_multiply (-2 * PI)
           (np.subtract_scalar (np.exp (np.negative w)) 1))
        (np.power r 2);
  integral ← np.trapz y r;
  let tot := hs + integral in
  let b2 := <["tot" := Number (np.Finite tot)]> b2 in
  let b2 := <["reduced" := Number (np.true_divide tot hs)]> b2 in
  rmin' ← py.min r;
  let b2 := <["hsrange" := Numbers [0; rmin']]> b2 in
  rmax ← py.max r;
  let b2 := <["range" := Numbers [0; rmax]]> b2 in
  let b2 :=
    if decide (fst mw > 0 /\ snd mw > 0)
    then <["mlmol/g2" :=
             Number (np.Finite (tot * N_A * 1e-24 / fst mw / snd mw))]> b2
    else b2 in
  Ok b2.

(** [scipy.optimize.curve_fit(f, xdata, ydata, p0)[0]], a library call.
  Before it iterates, [leastsq] evaluates the residual
  [f(xdata, *p0) - ydata] once and refuses a problem with more
  parameters than residuals:
  [if n > m: raise TypeError('Improper input: N=%s must not exceed M=%s')]. *)
Definition curve_fit (f : potential) (xdata ydata p0 : list R)
  : outcome (list R) :=
  y0 ← f xdata p0;
  residual ← np.broadcast Rminus y0 ydata;
  if decide (length residual < length p0)%nat then Raise "TypeError"
  else minpack f xdata ydata p0.

(** Lines 115-116, "cut out range and fit":
  [r, g = rdf.slice( *args.range ); a = curve_fit( pot, r, -np.log(g), args.guess )[0]]. *)
Definition main_fit (rdf : RadialDistributionFunction.t)
    (range : R * R) (guess : list R) : outcome (list R) :=
  '(r, g) ← RadialDistributionFunction.slice rdf (fst range) (snd range);
  curve_fit pot r (np.negative (np.log g)) guess.

(** Lines 126-135, "merge fitted data and model tail if needed".  The
  branch with the model tail assigns to [rdf.w] and to [a[-1]]: the
  result carries the loader object and the parameters as they are
  afterwards, next to the merged curve [(r, w)]. *)
Definition main_merge (shiftonly : bool) (rdf : RadialDistributionFunction.t)
    (a : list R) (range : R * R)
  : outcome (RadialDistributionFunction.t * list R * (list R * list R)) :=
  let rdf_r := RadialDistributionFunction.r rdf in
  let rdf_g := RadialDistributionFunction.g rdf in
  let rdf_w := RadialDistributionFunction.w rdf in
  if shiftonly then
    shift ← py.getitem_last a;
    Ok (rdf, a, (rdf_r, np.subtract_scalar rdf_w shift))
  else
    r1 ← py.getitem rdf_r 1;
    r0 ← py.getitem rdf_r 0;
    let dr := r1 - r0 in
    shift ← py.getitem_last a;
    let rdf_w := np.subtract_scalar rdf_w shift in
    let a := py.setitem_last a 0 in
    let shead := np.less_equal_scalar rdf_r (fst range) in
    rtail ← np.arange (fst range) (4 * snd range) dr;
    rhead ← np.getitem_mask rdf_r shead;
    let r := np.concatenate rhead rtail in
    whead ← np.getitem_mask rdf_w shead;
    wtail ← pot rtail a;
    let w := np.concatenate whead wtail in
    Ok (RadialDistributionFunction.mk rdf_r rdf_g rdf_w, a, (r, w)).

End Program.

(** ** The potentials of [potentiallist]

  Each entry is the text of an expression in [r], the parameters [a] and
  the globals [lB], [z1], [z2], and a default guess. *)

(** ['dh']: ['lB * z1 * z2 / r * np.exp( -r/a[0] ) + a[1]']. *)
Definition pot_dh (lB z1 z2 : R) : potential := fun r a =>
  a0 ← py.getitem a 0;
  a1 ← py.getitem a 1;
  Ok (map (fun x => lB * z1 * z2 / x * exp (- x / a0) + a1) r).

(** ['dhsinh']: its expression calls [sinh], a name that the program
  neither imports nor defines ([from math import pi] is the only import
  from [math]); looking the name up fails before any argument is
  evaluated. *)
Definition pot_dhsinh : potential := fun _ _ => Raise "NameError".

Definition potentiallist : gmap string (string * list R) :=
  <["dh" := ("lB * z1 * z2 / r * np.exp( -r/a[0] ) + a[1]", [30; 0])]>
    (<["dhsinh" :=
         ("lB * z1 * z2 * sinh(a[1]/a[0])**2 / r * np.exp(-r/a[0]) + a[2]",
          [30; 10; 0])]>
       (<["zero" := ("r*0 + a[0]", [0])]> ∅)).

(** Lines 97-99: a name of [potentiallist] is replaced by its expression
  and [args.guess] by its default guess; any other text is kept as the
  expression, with the guess of the command line, if any. *)
Definition resolve (pot : string) (guess : option (list R))
  : string * option (list R) :=
  match potentiallist !! pot with
  | Some (expression, default) => (expression, Some default)
  | None => (pot, guess)
  end.

(** ** The program

  The command line after [argparse]; the options that only change what is
  printed or plotted are left out. *)

Record arguments : Type := {
  arg_nm : bool;
  arg_z : R * R;
  arg_mw : R * R;
  arg_bjerrum : R;
  arg_shiftonly : bool;
  arg_norm : string;
  arg_range : R * R;
  arg_pot : string;
  arg_guess : option (list R);
  arg_show : bool;
  arg_infile : string;
  arg_outfile : string
}.

(** How a run ends when nothing fails: after listing the potentials
  ([exit(0)]), or with the merged curve, the virial coefficients and,
  for a non-empty [outfile], the table written to it.  The loader object
  and the parameters are those left by the merge. *)
Inductive run : Type :=
| Listed
| Finished (rdf : RadialDistributionFunction.t) (a : list R)
           (curve : list R * list R) (B2 : gmap string value)
           (saved : option (list (list R))).

Section Main.

Variable N_A : R.
Variable fs : filesystem.

(** What [exec 'def pot(r,*a): return '+expression] defines, given the
  globals [lB] and [(z1, z2)]; a malformed expression raises. *)
Variable exec_def : R -> R * R -> string -> outcome potential.

Variable minpack :
  potential -> list R -> list R -> list R -> outcome (list R).

(** Lines 104-107: the program looks for the file before the loader
  does, with a message of its own. *)
Definition main_load (infile : string)
  : outcome RadialDistributionFunction.t :=
  match fs infile with
  | Some _ => RadialDistributionFunction.init fs infile
  | None => Exit ("Error: File " +:+ infile +:+ " does not exist.")
  end.

(** Lines 110-112: nanometres to angstrom, then the volume element. *)
Definition main_units (nm : bool) (norm : string)
    (rdf : RadialDistributionFunction.t)
  : outcome RadialDistributionFunction.t :=
  let rdf :=
    if nm
    then RadialDistributionFunction.mk
           (np.scalar_multiply 10 (RadialDistributionFunction.r rdf))
           (RadialDistributionFunction.g rdf)
           (RadialDistributionFunction.w rdf)
    else rdf in
  rdf ← (if decide (norm = "2d")
         then RadialDistributionFunction.normalizeVolume rdf 2
         else Ok rdf);
  if decide (norm = "3d")
  then RadialDistributionFunction.normalizeVolume rdf 3
  else Ok rdf.

(** Lines 154-155: [np.savetxt(outfile, np.transpose( (r, w, np.exp(-w)) ))],
  skipped for an empty [outfile]; the result is the table written. *)
Definition main_save (outfile : string) (r w : list R)
  : outcome (option (list (list R))) :=
  if decide (outfile = "") then Ok None
  else
    table ← np.transpose3 r w (np.exp (np.negative w));
    Ok (Some table).

(** The program from line 90 on.  Without an initial guess, which happens
  for an expression of the user's own given without [--guess],
  [curve_fit] cannot count the parameters of [pot(r, *a)] and raises
  [ValueError]. *)
Definition main (args : arguments) : outcome run :=
  if arg_show args then Ok Listed
  else
    let '(expression, guess) := resolve (arg_pot args) (arg_guess args) in
    pot ← exec_def (arg_bjerrum args) (arg_z args) expression;
    rdf ← main_load (arg_infile args);
    rdf ← main_units (arg_nm args) (arg_norm args) rdf;
    a ← match guess with
        | Some guess => main_fit pot minpack rdf (arg_range args) guess
        | None =>
            _ ← RadialDistributionFunction.slice rdf (fst (arg_range args))
                  (snd (arg_range args));
            Raise "ValueError"
        end;
    '(rdf, a, (r, w)) ← main_merge pot (arg_shiftonly args) rdf a
                          (arg_range args);
    B2 ← VirialCoefficient N_A r w (arg_mw args);
    saved ← main_save (arg_outfile args) r w;
    Ok (Finished rdf a (r, w) B2 saved).

End Main.

(** ** Notions the statements are written with *)

(** [m] is the smallest element of [xs]. *)
Definition smallest (m : R) (xs : list R) : Prop :=
  m ∈ xs /\ Forall (fun x => m <= x) xs.

(** [m] is the largest element of [xs]. *)
Definition largest (m : R) (xs : list R) : Prop :=
  m ∈ xs /\ Forall (fun x => x <= m) xs.

(** The integrand of the virial integral at a point [(r, w)] of the curve:
  [-2 pi (exp(-w) - 1) r^2]. *)
Definition virial_integrand (r w : R) : R :=
  - 2 * PI * (exp (- w) - 1) * r ^ 2.

(** The trapezoidal rule over sample points [(x, y)]: each pair of
  neighbours contributes the width of its interval times the mean of its
  two ordinates. *)
Fixpoint trapezoid (pts : list (R * R)) : R :=
  match pts with
  | [] => 0
  | (x0, y0) :: rest =>
      match rest with
      | [] => 0
      | (x1, y1) :: _ => (x1 - x0) * ((y0 + y1) / 2) + trapezoid rest
      end
  end.

(** The points of a series that lie in the closed interval
  [[rmin, rmax]], in their order. *)
Definition points_within (rmin rmax : R) (pts : list (R * R))
  : list (R * R) :=
  filter (fun p => rmin <= fst p /\ fst p <= rmax) pts.

(** The measured points [(r, w)] of a loader object after subtracting
  [shift] from every [w]. *)
Definition shifted_points (rdf : RadialDistributionFunction.t) (shift : R)
  : list (R * R) :=
  zip (RadialDistributionFunction.r rdf)
      (map (fun w => w - shift) (RadialDistributionFunction.w rdf)).

(** A grid that never decreases. *)
Definition nondecreasing (xs : list R) : Prop := StronglySorted Rle xs.

(** The grid [start + i*step] for [i < n]. *)
Definition grid (start step : R) (n : nat) : list R :=
  map (fun i => start + INR i * step) (seq 0 n).

(** The head of the merged curve: the measured points, shifted, that lie
  at or below [rmin]. *)
Definition head_points (rdf : RadialDistributionFunction.t)
    (shift rmin : R) : list (R * R) :=
  filter (fun p => fst p <= rmin) (shifted_points rdf shift).

(** What [np.trapz] sums, without the checks of broadcasting. *)
Definition trapz_terms (y x : list R) : list R :=
  np.divide_scalar
    (zip_with Rmult (np.diff x)
       (zip_with Rplus (np.from_1 y) (np.upto_last y))) 2.

(** ** Sample inputs

  A measured series of four points, as the loader builds it from a
  two-column file; [a = [1]] is the least-squares fit of the potential
  ['zero'] to its points in the range [[2, 3]], where [w] is 0 and 2. *)

Definition sample_table : np.ndarray :=
  np.Array2 4 2
    (fun i j => nth j (nth i [[1; 1]; [2; 1]; [3; exp (-2)]; [4; 1]] []) 0).

Definition sample_fs : filesystem := fun name =>
  if decide (name = "gofr.dat") then Some (Ok sample_table) else None.

Definition sample_rdf : RadialDistributionFunction.t :=
  RadialDistributionFunction.mk [1; 2; 3; 4] [1; 1; exp (-2); 1] [0; 0; 2; 0].

(** An ideal gas sampled at two distances: [g = 1], [w = 0]. *)
Definition ideal_rdf : RadialDistributionFunction.t :=
  RadialDistributionFunction.mk [1; 2] [1; 1] [0; 0].

(** A two-column file whose first row has [g = 0]. *)
Definition zero_g_table : np.ndarray :=
  np.Array2 2 2 (fun i j => nth j (nth i [[1; 0]; [2; 1]] []) 0).

Definition zero_g_fs : filesystem := fun name =>
  if decide (name = "gofr.dat") then Some (Ok zero_g_table) else None.

(** A stand-in for the iteration of MINPACK where its result plays no
  part: it hands the initial guess back. *)
Definition sample_minpack
  : potential -> list R -> list R -> list R -> outcome (list R) :=
  fun _ _ _ p0 => Ok p0.

(** The value of [scipy.constants.N_A] in the scipy releases of 2015. *)
Definition sample_N_A : R := 6.02214129e23.

(** What [exec] defines for the three expressions of [potentiallist];
  any other text stands here for an expression that does not compile. *)
Definition sample_exec : R -> R * R -> string -> outcome potential :=
  fun lB z expression =>
    if decide (expression = "r*0 + a[0]") then Ok pot_zero
    else if decide (expression
                    = "lB * z1 * z2 / r * np.exp( -r/a[0] ) + a[1]")
    then Ok (pot_dh lB (fst z) (snd z))
    else if decide
              (expression
               = "lB * z1 * z2 * sinh(a[1]/a[0])**2 / r * np.exp(-r/a[0]) + a[2]")
    then Ok pot_dhsinh
    else Raise "SyntaxError".

(** A command line: shift-only mode, potential ['zero'], fit range
  [[2, 3]]. *)
Definition sample_args : arguments :=
  {| arg_nm := false; arg_z := (0, 0); arg_mw := (0, 0);
     arg_bjerrum := 7.1; arg_shiftonly := true; arg_norm := "no";
     arg_range := (2, 3); arg_pot := "zero"; arg_guess := None;
     arg_show := false; arg_infile := "gofr.dat";
     arg_outfile := "out.dat" |}.

(** The same with an input file that does not exist. *)
Definition sample_args_missing : arguments :=
  {| arg_nm := false; arg_z := (0, 0); arg_mw := (0, 0);
     arg_bjerrum := 7.1; arg_shiftonly := true; arg_norm := "no";
     arg_range := (2, 3); arg_pot := "zero"; arg_guess := None;
     arg_show := false; arg_infile := "missing.dat";
     arg_outfile := "out.dat" |}.

(** A [Forall] of comparisons over a list of numerals. *)
Ltac forall_reals :=
  repeat (apply Forall_cons; split; [cbn; lra|]); by apply Forall_nil.

(** * Properties *)

(** ** Boolean masks *)

Section Masks.

Variable b : R -> bool.

Lemma mask_selects (xs : list R) :
  np.getitem_mask xs (map b xs) = Ok (filter (fun x => b x = true) xs).
Proof.
  unfold np.getitem_mask.
  rewrite decide_True by apply length_map. f_equal.
  induction xs as [|x xs IH]; [done|]. cbn [map zip zip_with].
  destruct (b x) eqn:Hb.
  - rewrite !filter_cons_True by done. cbn. by rewrite IH.
  - rewrite !filter_cons_False; [done| |]; cbn; congruence.
Qed.

Lemma mask_selects_along (xs ys : list R) :
  length xs = length ys ->
  np.getitem_mask ys (map b xs)
  = Ok (snd <$> filter (fun p => b (fst p) = true) (zip xs ys)).
Proof.
  intros Hlen. unfold np.getitem_mask.
  rewrite decide_True by (by rewrite length_map). f_equal.
  revert ys Hlen. induction xs as [|x xs IH]; intros [|y ys] Hlen;
    try done. cbn [map zip zip_with].
  injection Hlen as Hlen.
  destruct (b x) eqn:Hb.
  - rewrite !filter_cons_True by done. cbn. by rewrite IH.
  - rewrite !filter_cons_False; [by apply IH| |]; cbn; congruence.
Qed.

Lemma filter_fst_zip (xs ys : list R) :
  length xs = length ys ->
  fst <$> filter (fun p => b (fst p) = true) (zip xs ys)
  = filter (fun x => b x = true) xs.
Proof.
  revert ys. induction xs as [|x xs IH]; intros [|y ys] Hlen; try done.
  injection Hlen as Hlen. cbn [zip zip_with].
  destruct (b x) eqn:Hb.
  - rewrite !filter_cons_True by done. cbn. by rewrite IH.
  - rewrite !filter_cons_False; [by apply IH| |]; cbn; congruence.
Qed.

End Masks.

Lemma logical_and_map (b1 b2 : R -> bool) (xs : list R) :
  np.logical_and (map b1 xs) (map b2 xs)
  = map (fun x => b1 x && b2 x) xs.
Proof.
  unfold np.logical_and. induction xs as [|x xs IH]; [done|].
  cbn. by rewrite IH.
Qed.

(** ** The builtins [min] and [max] *)

Lemma fold_min_smallest (rest : list R) (x : R) :
  smallest (fold_left (fun m y => if decide (y < m) then y else m) rest x)
           (x :: rest).
Proof.
  revert x. induction rest as [|y rest IH]; intros x.
  - cbn. split; [left|]. apply Forall_cons; split; [lra|constructor].
  - cbn [fold_left]. destruct (IH (if decide (y < x) then y else x))
      as [Hin Hall].
    apply Forall_cons in Hall as [Hhd Hall]. split.
    + apply elem_of_cons in Hin as [Hin|Hin].
      * rewrite Hin. case_decide; [right; left|left].
      * by do 2 right.
    + case_decide; repeat (apply Forall_cons; split); try done; lra.
Qed.

Lemma fold_max_largest (rest : list R) (x : R) :
  largest (fold_left (fun m y => if decide (y > m) then y else m) rest x)
          (x :: rest).
Proof.
  revert x. induction rest as [|y rest IH]; intros x.
  - cbn. split; [left|]. apply Forall_cons; split; [lra|constructor].
  - cbn [fold_left]. destruct (IH (if decide (y > x) then y else x))
      as [Hin Hall].
    apply Forall_cons in Hall as [Hhd Hall]. split.
    + apply elem_of_cons in Hin as [Hin|Hin].
      * rewrite Hin. case_decide; [right; left|left].
      * by do 2 right.
    + case_decide; repeat (apply Forall_cons; split); try done; lra.
Qed.

Lemma min_smallest (xs : list R) (m : R) :
  py.min xs = Ok m -> smallest m xs.
Proof.
  destruct xs as [|x rest]; [done|]. cbn. intros [= <-].
  apply fold_min_smallest.
Qed.

Lemma max_largest (xs : list R) (m : R) :
  py.max xs = Ok m -> largest m xs.
Proof.
  destruct xs as [|x rest]; [done|]. cbn. intros [= <-].
  apply fold_max_largest.
Qed.

Lemma min_succeeds (xs : list R) : xs <> [] -> succeeds (py.min xs).
Proof. destruct xs; [done|]. intros _. by eexists. Qed.

Lemma max_succeeds (xs : list R) : xs <> [] -> succeeds (py.max xs).
Proof. destruct xs; [done|]. intros _. by eexists. Qed.

(** ** Range selection *)

Lemma filter_none {A} (P : A -> Prop) `{!forall x, Decision (P x)}
    (l : list A) :
  (forall x, x ∈ l -> ~ P x) -> filter P l = [].
Proof.
  induction l as [|x l IH]; intros Hall; [done|].
  rewrite filter_cons_False by (apply Hall; left).
  apply IH. intros y Hy. apply Hall. by right.
Qed.

Lemma points_within_outside (rmin rmax : R) (rs gs : list R) :
  Forall (fun x => x < rmin) rs \/ Forall (fun x => rmax < x) rs ->
  points_within rmin rmax (zip rs gs) = [].
Proof.
  intros Hout. apply filter_none. intros [x y] Hin.
  apply elem_of_zip_l in Hin. cbn.
  destruct Hout as [Hout|Hout]; rewrite Forall_forall in Hout;
    specialize (Hout x Hin); cbn in Hout; lra.
Qed.

Lemma slice_runs (rdf : RadialDistributionFunction.t) (rmin rmax : R) :
  length (RadialDistributionFunction.r rdf)
  = length (RadialDistributionFunction.g rdf) ->
  let sel := points_within rmin rmax
               (zip (RadialDistributionFunction.r rdf)
                    (RadialDistributionFunction.g rdf)) in
  RadialDistributionFunction.slice rdf rmin rmax
  = Ok (fst <$> sel, snd <$> sel).
Proof.
  destruct rdf as [r g w]. cbn. intros Hlen.
  set (b := fun x : R => bool_decide (x >= rmin) && bool_decide (x <= rmax)).
  assert (Hsel : filter (fun p : R * R => b (fst p) = true) (zip r g)
                 = points_within rmin rmax (zip r g)).
  { apply list_filter_iff. intros [x y]. cbn. unfold b.
    rewrite andb_true_iff, !bool_decide_eq_true. split; intros []; split; lra. }
  unfold RadialDistributionFunction.slice. cbn.
  unfold np.greater_equal_scalar, np.less_equal_scalar.
  rewrite logical_and_map. fold b.
  rewrite mask_selects, (mask_selects_along b r g Hlen). cbn.
  by rewrite <- (filter_fst_zip b r g Hlen), Hsel.
Qed.

(** C7.  On a series whose [r] and [g] arrays have one length, [slice]
    returns the points with [rmin <= r <= rmax], both ends included, in
    their original order, and nothing when [rmin] is above the largest
    [r] or [rmax] below the smallest. *)
Theorem slice_selects_closed_interval
    (rdf : RadialDistributionFunction.t) (rmin rmax : R) :
  length (RadialDistributionFunction.r rdf)
  = length (RadialDistributionFunction.g rdf) ->
  exists rs gs,
    RadialDistributionFunction.slice rdf rmin rmax = Ok (rs, gs) /\
    length rs = length gs /\
    zip rs gs
    = points_within rmin rmax
        (zip (RadialDistributionFunction.r rdf)
             (RadialDistributionFunction.g rdf)) /\
    (forall M, py.max (RadialDistributionFunction.r rdf) = Ok M ->
               rmin > M -> rs = [] /\ gs = []) /\
    (forall m, py.min (RadialDistributionFunction.r rdf) = Ok m ->
               rmax < m -> rs = [] /\ gs = []).
Proof.
  intros Hlen. pose proof (slice_runs rdf rmin rmax Hlen) as Hslice.
  cbn zeta in Hslice.
  set (sel := points_within rmin rmax _) in *.
  assert (Hnil : sel = [] -> fst <$> sel = [] /\ snd <$> sel = []).
  { by intros ->. }
  exists (fst <$> sel), (snd <$> sel). split; [done|].
  split; [by rewrite !length_fmap|].
  split; [by rewrite zip_fst_snd|].
  split.
  - intros M HM Hgt. apply Hnil, points_within_outside. left.
    destruct (max_largest _ _ HM) as [_ Hall].
    eapply Forall_impl; [exact Hall|]. cbn. intros; lra.
  - intros m Hm Hlt. apply Hnil, points_within_outside. right.
    destruct (min_smallest _ _ Hm) as [_ Hall].
    eapply Forall_impl; [exact Hall|]. cbn. intros; lra.
Qed.

(** ** [np.arange] *)

Lemma ceil_bounds (x : R) : IZR (np.ceil x) - 1 < x <= IZR (np.ceil x).
Proof.
  unfold np.ceil. rewrite minus_IZR.
  destruct (archimed (- x)) as [Hgt Hle]. lra.
Qed.

Lemma ceil_IZR (z : Z) : np.ceil (IZR z) = z.
Proof.
  unfold np.ceil. rewrite <- opp_IZR.
  rewrite <- (tech_up (IZR (- z)) (- z + 1)).
  - lia.
  - rewrite plus_IZR. lra.
  - rewrite plus_IZR. lra.
Qed.

Lemma elem_of_grid (start step : R) (n : nat) (x : R) :
  x ∈ grid start step n <->
  exists i, (i < n)%nat /\ x = start + INR i * step.
Proof.
  unfold grid. rewrite list_elem_of_fmap. split.
  - intros (i & -> & Hi). apply elem_of_seq in Hi. exists i. split; [lia|done].
  - intros (i & Hi & ->). exists i. split; [done|]. apply elem_of_seq. lia.
Qed.

Lemma grid_nondecreasing (start step : R) (n : nat) :
  0 <= step -> nondecreasing (grid start step n).
Proof.
  intros Hstep. unfold nondecreasing. revert start.
  induction n as [|n IH]; intros start; [constructor|].
  unfold grid. cbn [seq map]. rewrite <- seq_shift, map_map.
  apply StronglySorted_cons. split.
  - apply Forall_forall. intros x Hx. apply list_elem_of_fmap in Hx
      as (i & -> & _). rewrite S_INR. cbn.
    pose proof (pos_INR i). nra.
  - replace (map _ (seq 0 n)) with (grid (start + step) step n); [apply IH|].
    unfold grid. apply map_ext. intros i. rewrite S_INR. lra.
Qed.

Lemma arange_nonzero (start stop step : R) :
  step <> 0 ->
  np.arange start stop step
  = Ok (grid start step (Z.to_nat (np.ceil ((stop - start) / step)))).
Proof. intros Hstep. unfold np.arange. by rewrite decide_False. Qed.

Lemma arange_count (start stop step : R) :
  0 < step -> start < stop ->
  let n := Z.to_nat (np.ceil ((stop - start) / step)) in
  (0 < n)%nat /\ INR n - 1 < (stop - start) / step <= INR n.
Proof.
  intros Hstep Hlt n.
  assert (Hq : 0 < (stop - start) / step).
  { apply Rdiv_lt_0_compat; lra. }
  pose proof (ceil_bounds ((stop - start) / step)) as Hb.
  assert (Hpos : (0 < np.ceil ((stop - start) / step))%Z).
  { apply lt_IZR. lra. }
  assert (Hn : INR n = IZR (np.ceil ((stop - start) / step))).
  { unfold n. rewrite INR_IZR_INZ, Z2Nat.id; [done|lia]. }
  split; [unfold n; lia|]. rewrite Hn. lra.
Qed.

(** With a positive step and [start < stop] the grid of [np.arange] is not
    empty, starts at [start], stays below [stop] and ends less than one
    step short of it. *)
Lemma arange_forward (start stop step : R) :
  0 < step -> start < stop ->
  exists n,
    np.arange start stop step = Ok (grid start step (S n)) /\
    Forall (fun x => start <= x < stop) (grid start step (S n)) /\
    stop - step <= start + INR n * step.
Proof.
  intros Hstep Hlt.
  destruct (arange_count start stop step Hstep Hlt) as [Hpos Hq].
  set (q := (stop - start) / step) in *.
  assert (Hqs : q * step = stop - start) by (unfold q; field; lra).
  destruct (Z.to_nat (np.ceil q)) as [|n] eqn:Hn; [lia|].
  exists n. split; [|split].
  - rewrite arange_nonzero by lra. fold q. by rewrite Hn.
  - apply Forall_forall. intros x Hx.
    apply elem_of_grid in Hx as (i & Hi & ->).
    assert (INR i <= INR n) by (apply le_INR; lia).
    rewrite S_INR in Hq. pose proof (pos_INR i). nra.
  - rewrite S_INR in Hq. nra.
Qed.

(** ** Merging the measured curve and the model tail *)

Section Merge.

Variable pot : potential.

Lemma getitem_last_Some (a : list R) (shift : R) :
  last a = Some shift -> py.getitem_last a = Ok shift.
Proof. unfold py.getitem_last. by intros ->. Qed.

Lemma getitem_Some (xs : list R) (i : nat) (x : R) :
  xs !! i = Some x -> py.getitem xs i = Ok x.
Proof. unfold py.getitem. by intros ->. Qed.

(** C6.  Without the model tail, the merged curve has the grid of the
    measured series unchanged and, at every point, the measured [w] minus
    the last fitted parameter; the loader object and the parameters are
    left as they were. *)
Theorem shiftonly_subtracts_last_parameter
    (rdf : RadialDistributionFunction.t) (a : list R) (range : R * R)
    (shift : R) :
  last a = Some shift ->
  exists r w,
    main_merge pot true rdf a range = Ok (rdf, a, (r, w)) /\
    r = RadialDistributionFunction.r rdf /\
    length w = length (RadialDistributionFunction.w rdf) /\
    forall i wi,
      RadialDistributionFunction.w rdf !! i = Some wi ->
      w !! i = Some (wi - shift).
Proof.
  intros Hlast.
  exists (RadialDistributionFunction.r rdf),
         (np.subtract_scalar (RadialDistributionFunction.w rdf) shift).
  split; [|split; [done|split]].
  - unfold main_merge. by rewrite (getitem_last_Some a shift Hlast).
  - unfold np.subtract_scalar. apply length_map.
  - intros i wi Hi. unfold np.subtract_scalar.
    change (map ?f ?l) with (f <$> l). by rewrite list_lookup_fmap, Hi.
Qed.

Lemma main_merge_splice (rdf : RadialDistributionFunction.t)
    (a : list R) (range : R * R) (r0 r1 shift : R) (rtail wtail : list R) :
  RadialDistributionFunction.r rdf !! 0%nat = Some r0 ->
  RadialDistributionFunction.r rdf !! 1%nat = Some r1 ->
  last a = Some shift ->
  length (RadialDistributionFunction.r rdf)
  = length (RadialDistributionFunction.w rdf) ->
  np.arange (fst range) (4 * snd range) (r1 - r0) = Ok rtail ->
  pot rtail (py.setitem_last a 0) = Ok wtail ->
  main_merge pot false rdf a range
  = Ok (RadialDistributionFunction.mk
          (RadialDistributionFunction.r rdf)
          (RadialDistributionFunction.g rdf)
          (np.subtract_scalar (RadialDistributionFunction.w rdf) shift),
        py.setitem_last a 0,
        ((fst <$> head_points rdf shift (fst range)) ++ rtail,
         (snd <$> head_points rdf shift (fst range)) ++ wtail)).
Proof.
  destruct rdf as [r g w]. cbn. intros H0 H1 Hlast Hlen Htail Hpot.
  unfold main_merge. cbn.
  rewrite (getitem_Some r 1 r1 H1), (getitem_Some r 0 r0 H0). cbn.
  rewrite (getitem_last_Some a shift Hlast). cbn.
  rewrite Htail. cbn. unfold np.less_equal_scalar.
  set (b := fun x : R => bool_decide (x <= fst range)).
  rewrite (mask_selects b r). cbn.
  set (ws := map (fun x : R => x - shift) w).
  assert (Hlen' : length r = length ws) by (unfold ws; by rewrite length_map).
  rewrite (mask_selects_along b r ws Hlen'). cbn.
  rewrite Hpot. cbn. unfold np.concatenate.
  rewrite <- (filter_fst_zip b r ws Hlen').
  assert (Hhead : filter (fun p : R * R => b (fst p) = true) (zip r ws)
                  = filter (fun p : R * R => fst p <= fst range) (zip r ws)).
  { apply list_filter_iff. intros [x y]. cbn. unfold b.
    by rewrite bool_decide_eq_true. }
  by rewrite Hhead.
Qed.

End Merge.

Section Splice.

Variable pot : potential.

Lemma grid_at_least_start (start step : R) (n : nat) :
  0 <= step -> Forall (fun x => start <= x) (grid start step n).
Proof.
  intros Hstep. apply Forall_forall. intros x Hx.
  apply elem_of_grid in Hx as (i & _ & ->). pose proof (pos_INR i). nra.
Qed.

Lemma head_points_sorted (rdf : RadialDistributionFunction.t)
    (shift rmin : R) :
  nondecreasing (RadialDistributionFunction.r rdf) ->
  length (RadialDistributionFunction.r rdf)
  = length (RadialDistributionFunction.w rdf) ->
  nondecreasing (fst <$> head_points rdf shift rmin).
Proof.
  destruct rdf as [r g w]. cbn. intros Hsorted Hlen.
  unfold head_points, shifted_points. cbn.
  set (ws := map (fun x : R => x - shift) w).
  assert (Hlen' : length r = length ws) by (unfold ws; by rewrite length_map).
  clearbody ws. clear Hlen. revert ws Hlen'.
  induction Hsorted as [|x r Hsorted IH Hall]; intros [|y ws] Hlen';
    try done; [constructor|].
  injection Hlen' as Hlen'. cbn [zip zip_with].
  destruct (decide (x <= rmin)) as [Hx|Hx].
  - rewrite filter_cons_True by done. cbn [fmap list_fmap fst].
    apply StronglySorted_cons. split; [|by apply IH].
    apply Forall_forall. intros z Hz.
    apply list_elem_of_fmap in Hz as ([z1 z2] & -> & Hz).
    apply list_elem_of_filter in Hz as [_ Hz].
    apply elem_of_zip_l in Hz. rewrite Forall_forall in Hall. by apply Hall.
  - rewrite filter_cons_False by done. by apply IH.
Qed.

Lemma head_points_below (rdf : RadialDistributionFunction.t)
    (shift rmin : R) :
  Forall (fun x => x <= rmin) (fst <$> head_points rdf shift rmin).
Proof.
  apply Forall_forall. intros x Hx.
  apply list_elem_of_fmap in Hx as (p & -> & Hp).
  unfold head_points in Hp. by apply list_elem_of_filter in Hp as [Hp _].
Qed.

(** C5, as the program has it.  With the model tail, the merged curve
    begins with the measured points at or below [rmin_fit], in order, each
    with the last fitted parameter subtracted from its [w]; the points
    that follow are the model tail and lie at or above [rmin_fit], so
    every merged point strictly below [rmin_fit] is a shifted measured
    point. *)
Theorem splice_head_is_shifted_data
    (rdf : RadialDistributionFunction.t) (a : list R) (range : R * R)
    (r0 r1 shift : R) :
  RadialDistributionFunction.r rdf !! 0%nat = Some r0 ->
  RadialDistributionFunction.r rdf !! 1%nat = Some r1 ->
  r0 < r1 ->
  last a = Some shift ->
  length (RadialDistributionFunction.r rdf)
  = length (RadialDistributionFunction.w rdf) ->
  (forall xs, succeeds (pot xs (py.setitem_last a 0))) ->
  exists rdf' a' r w,
    main_merge pot false rdf a range = Ok (rdf', a', (r, w)) /\
    take (length (head_points rdf shift (fst range))) (zip r w)
    = head_points rdf shift (fst range) /\
    Forall (fun p => fst range <= fst p)
           (drop (length (head_points rdf shift (fst range))) (zip r w)) /\
    forall p, p ∈ zip r w -> fst p < fst range ->
              p ∈ shifted_points rdf shift.
Proof.
  intros H0 H1 Hdr Hlast Hlen Hpot.
  assert (Hstep : r1 - r0 <> 0) by lra.
  pose proof (arange_nonzero (fst range) (4 * snd range) (r1 - r0) Hstep)
    as Htail.
  set (rtail := grid _ _ _) in Htail.
  destruct (Hpot rtail) as [wtail Hw].
  pose proof (main_merge_splice pot rdf a range r0 r1 shift rtail wtail
                H0 H1 Hlast Hlen Htail Hw) as Hmerge.
  set (head := head_points rdf shift (fst range)) in *.
  assert (Hzip : zip (head.*1 ++ rtail) (head.*2 ++ wtail)
                 = head ++ zip rtail wtail).
  { rewrite zip_with_app by (by rewrite !length_fmap).
    f_equal. apply zip_fst_snd. }
  assert (Hrest : Forall (fun p : R * R => fst range <= fst p)
                    (zip rtail wtail)).
  { apply Forall_forall. intros [x y] Hin. apply elem_of_zip_l in Hin.
    pose proof (grid_at_least_start (fst range) (r1 - r0)
                  (Z.to_nat (np.ceil ((4 * snd range - fst range) / (r1 - r0))))
                  ltac:(lra)) as Hge.
    rewrite Forall_forall in Hge. by apply Hge. }
  eexists _, _, _, _. split; [exact Hmerge|]. rewrite Hzip.
  split; [by rewrite take_app_length|].
  split; [by rewrite drop_app_length|].
  intros p Hp Hlt. apply elem_of_app in Hp as [Hp|Hp].
  - unfold head, head_points in Hp.
    by apply list_elem_of_filter in Hp as [_ Hp].
  - rewrite Forall_forall in Hrest. specialize (Hrest p Hp). cbn in Hrest. lra.
Qed.

End Splice.

Section SpliceGrid.

Variable pot : potential.


End SpliceGrid.

(** ** The trapezoidal rule of [np.trapz] *)

Lemma broadcast_same_length (f : R -> R -> R) (xs ys : list R) :
  length xs = length ys -> np.broadcast f xs ys = Ok (zip_with f xs ys).
Proof. intros Hlen. unfold np.broadcast. by rewrite decide_True. Qed.

Lemma length_from_1 (xs : list R) :
  length (np.from_1 xs) = pred (length xs).
Proof. by destruct xs. Qed.

Lemma length_upto_last (xs : list R) :
  length (np.upto_last xs) = pred (length xs).
Proof.
  unfold np.upto_last. induction xs as [|x [|x' xs] IH]; try done.
  cbn [removelast length] in *. by rewrite IH.
Qed.

Lemma length_diff (xs : list R) : length (np.diff xs) = pred (length xs).
Proof.
  unfold np.diff. rewrite length_zip_with, length_from_1, length_upto_last.
  lia.
Qed.

Lemma trapz_same_length (y x : list R) :
  length y = length x -> np.trapz y x = Ok (np.sum (trapz_terms y x)).
Proof.
  intros Hlen. unfold np.trapz, np.add, np.multiply.
  rewrite broadcast_same_length
    by (by rewrite length_from_1, length_upto_last).
  cbn. rewrite broadcast_same_length; [done|].
  rewrite length_diff, length_zip_with, length_from_1, length_upto_last.
  lia.
Qed.

Lemma trapz_terms_step (x0 x1 y0 y1 : R) (xs ys : list R) :
  trapz_terms (y0 :: y1 :: ys) (x0 :: x1 :: xs)
  = ((x1 - x0) * (y1 + y0) / 2) :: trapz_terms (y1 :: ys) (x1 :: xs).
Proof. done. Qed.

Lemma sum_trapz_terms (y x : list R) :
  length y = length x -> np.sum (trapz_terms y x) = trapezoid (zip x y).
Proof.
  revert y. induction x as [|x0 xs IH]; intros [|y0 ys] Hlen; try done.
  injection Hlen as Hlen.
  destruct xs as [|x1 xs], ys as [|y1 ys]; try done.
  rewrite trapz_terms_step.
  change (np.sum (?t :: ?l)) with (t + np.sum l).
  rewrite (IH (y1 :: ys)) by done.
  change (trapezoid (zip (x0 :: x1 :: xs) (y0 :: y1 :: ys)))
    with ((x1 - x0) * ((y0 + y1) / 2)
          + trapezoid (zip (x1 :: xs) (y1 :: ys))).
  lra.
Qed.

Lemma trapz_is_trapezoid (y x : list R) :
  length y = length x -> np.trapz y x = Ok (trapezoid (zip x y)).
Proof.
  intros Hlen. by rewrite trapz_same_length, sum_trapz_terms.
Qed.

(** ** The integrand *)

Lemma integrand_array (r w : list R) :
  length r = length w ->
  np.multiply
    (np.scalar_multiply (-2 * PI)
       (np.subtract_scalar (np.exp (np.negative w)) 1))
    (np.power r 2)
  = Ok (zip_with virial_integrand r w).
Proof.
  intros Hlen. unfold np.multiply.
  rewrite broadcast_same_length.
  2:{ unfold np.scalar_multiply, np.subtract_scalar, np.exp, np.negative,
        np.power. by rewrite !length_map. }
  f_equal. unfold np.scalar_multiply, np.subtract_scalar, np.exp,
    np.negative, np.power.
  revert w Hlen. induction r as [|x r IH]; intros [|y w] Hlen; try done.
  injection Hlen as Hlen. cbn [map zip_with]. rewrite (IH w Hlen).
  by unfold virial_integrand.
Qed.

Lemma trapezoid_zero (r y : list R) :
  Forall (fun v => v = 0) y -> trapezoid (zip r y) = 0.
Proof.
  intros Hy. revert r. induction Hy as [|y0 ys Hy0 Hys IH]; intros [|x0 r];
    try done.
  destruct r as [|x1 r]; [done|]. destruct Hys as [|y1 ys Hy1 Hys]; [done|].
  change (trapezoid (zip (x0 :: x1 :: r) (y0 :: y1 :: ys)))
    with ((x1 - x0) * ((y0 + y1) / 2)
          + trapezoid (zip (x1 :: r) (y1 :: ys))).
  rewrite (IH (x1 :: r)). subst. lra.
Qed.

(** ** The virial coefficient *)

Lemma smallest_unique (m m' : R) (xs : list R) :
  smallest m xs -> smallest m' xs -> m = m'.
Proof.
  intros [Hin Hall] [Hin' Hall']. rewrite Forall_forall in Hall, Hall'.
  specialize (Hall m' Hin'). specialize (Hall' m Hin). cbn in *. lra.
Qed.

Lemma smallest_min (xs : list R) (m : R) :
  smallest m xs -> py.min xs = Ok m.
Proof.
  intros Hm. destruct (min_succeeds xs) as [m' Hm'].
  { destruct Hm as [Hin _]. intros ->. by apply elem_of_nil in Hin. }
  rewrite Hm'. f_equal. eapply smallest_unique; [|exact Hm].
  by apply min_smallest.
Qed.

Lemma smallest_exists (xs : list R) : xs <> [] -> exists m, smallest m xs.
Proof.
  intros Hne. destruct (min_succeeds xs Hne) as [m Hm].
  exists m. by apply min_smallest.
Qed.

Section Virial.

Variable N_A : R.

Lemma VirialCoefficient_runs (r w : list R) (mw : R * R) (rmin : R) :
  length r = length w ->
  smallest rmin r ->
  exists rmax,
    let hs := 2 * PI / 3 * rmin ^ 3 in
    let tot := hs + trapezoid (zip r (zip_with virial_integrand r w)) in
    let b2 : gmap string value :=
      <["range" := Numbers [0; rmax]]>
        (<["hsrange" := Numbers [0; rmin]]>
           (<["reduced" := Number (np.true_divide tot hs)]>
              (<["tot" := Number (np.Finite tot)]>
                 (<["hs" := Number (np.Finite hs)]> ∅)))) in
    VirialCoefficient N_A r w mw
    = Ok (if decide (fst mw > 0 /\ snd mw > 0)
          then <["mlmol/g2" :=
                   Number (np.Finite
                             (tot * N_A * 1e-24 / fst mw / snd mw))]> b2
          else b2).
Proof.
  intros Hlen Hmin.
  assert (Hne : r <> []).
  { destruct Hmin as [Hin _]. intros ->. by apply elem_of_nil in Hin. }
  destruct (max_succeeds r Hne) as [rmax Hmax]. exists rmax.
  unfold VirialCoefficient.
  rewrite (smallest_min r rmin Hmin). cbn.
  rewrite (integrand_array r w Hlen). cbn.
  rewrite trapz_is_trapezoid by (by rewrite length_zip_with_l_eq).
  cbn. by rewrite Hmax.
Qed.

(** C1.  For a curve with at least one point, [VirialCoefficient]
    returns a dictionary in which ['hs'] is [2 pi / 3] times the cube of
    the smallest [r], ['tot'] is ['hs'] plus the trapezoidal-rule integral
    of [-2 pi (exp(-w) - 1) r^2] over the points of the curve, and
    ['reduced'] is the float quotient of ['tot'] by ['hs']. *)
Theorem VirialCoefficient_formulas (r w : list R) (mw : R * R) :
  r <> [] ->
  length r = length w ->
  exists b2 rmin hs tot,
    VirialCoefficient N_A r w mw = Ok b2 /\
    smallest rmin r /\
    hs = 2 * PI / 3 * rmin ^ 3 /\
    tot = hs + trapezoid (zip r (zip_with virial_integrand r w)) /\
    b2 !! "hs" = Some (Number (np.Finite hs)) /\
    b2 !! "tot" = Some (Number (np.Finite tot)) /\
    (hs <> 0 -> b2 !! "reduced" = Some (Number (np.Finite (tot / hs)))) /\
    (hs = 0 -> b2 !! "reduced" = Some (Number np.NotFinite)).
Proof.
  intros Hne Hlen. destruct (smallest_exists r Hne) as [rmin Hmin].
  destruct (VirialCoefficient_runs r w mw rmin Hlen Hmin) as [rmax Hrun].
  cbn zeta in Hrun.
  eexists _, rmin, _, _. split; [exact Hrun|].
  split; [done|]. split; [done|]. split; [done|].
  unfold np.true_divide.
  repeat split; intros; case_decide; simplify_map_eq; done.
Qed.

(** C8.  The dictionary has the key ['mlmol/g2'] exactly when both molar
    masses are strictly positive, and then its value is
    [tot * N_A * 1e-24 / mw[0] / mw[1]]. *)
Theorem VirialCoefficient_molar_units (r w : list R) (mw : R * R) :
  r <> [] ->
  length r = length w ->
  exists b2 tot,
    VirialCoefficient N_A r w mw = Ok b2 /\
    b2 !! "tot" = Some (Number (np.Finite tot)) /\
    (is_Some (b2 !! "mlmol/g2") <-> 0 < fst mw /\ 0 < snd mw) /\
    (0 < fst mw -> 0 < snd mw ->
     b2 !! "mlmol/g2"
     = Some (Number (np.Finite (tot * N_A * 1e-24 / fst mw / snd mw)))).
Proof.
  intros Hne Hlen. destruct (smallest_exists r Hne) as [rmin Hmin].
  destruct (VirialCoefficient_runs r w mw rmin Hlen Hmin) as [rmax Hrun].
  cbn zeta in Hrun.
  eexists _, _. split; [exact Hrun|].
  case_decide as Hmw.
  - split; [by simplify_map_eq|]. split.
    + split; [intros _; lra|]. intros _. by simplify_map_eq.
    + intros _ _. by simplify_map_eq.
  - split; [by simplify_map_eq|]. split.
    + split.
      * simplify_map_eq. by intros [? ?].
      * intros [? ?]. exfalso. apply Hmw. lra.
    + intros ? ?. exfalso. apply Hmw. lra.
Qed.

(** C9, as the program has it.  On a curve with at least one point and
    [w = 0] at every point, ['tot'] equals ['hs']; ['reduced'] is 1 when
    the smallest [r] is not zero. *)
Theorem VirialCoefficient_ideal_gas (r w : list R) (mw : R * R) :
  r <> [] ->
  length r = length w ->
  Forall (fun v => v = 0) w ->
  exists b2 rmin hs,
    VirialCoefficient N_A r w mw = Ok b2 /\
    smallest rmin r /\
    b2 !! "hs" = Some (Number (np.Finite hs)) /\
    b2 !! "tot" = Some (Number (np.Finite hs)) /\
    (rmin <> 0 -> b2 !! "reduced" = Some (Number (np.Finite 1))).
Proof.
  intros Hne Hlen Hw. destruct (smallest_exists r Hne) as [rmin Hmin].
  destruct (VirialCoefficient_runs r w mw rmin Hlen Hmin) as [rmax Hrun].
  cbn zeta in Hrun.
  assert (Hzero : Forall (fun v => v = 0) (zip_with virial_integrand r w)).
  { clear -Hlen Hw. revert r Hlen.
    induction Hw as [|y w Hy Hw IH]; intros [|x r] Hlen; try done.
    injection Hlen as Hlen. cbn [zip_with]. constructor; [|by apply IH].
    subst. unfold virial_integrand. rewrite Ropp_0, exp_0. lra. }
  rewrite (trapezoid_zero r _ Hzero), Rplus_0_r in Hrun.
  eexists _, rmin, _. split; [exact Hrun|]. split; [done|].
  split; [case_decide; by simplify_map_eq|].
  split; [case_decide; by simplify_map_eq|].
  intros Hnz.
  assert (Hhs : 2 * PI / 3 * rmin ^ 3 <> 0).
  { pose proof PI_RGT_0. pose proof (pow_nonzero rmin 3 Hnz). nra. }
  assert (Hdiv : np.true_divide (2 * PI / 3 * rmin ^ 3)
                   (2 * PI / 3 * rmin ^ 3) = np.Finite 1).
  { unfold np.true_divide. rewrite decide_False by done.
    unfold Rdiv at 1. by rewrite Rinv_r. }
  rewrite Hdiv. case_decide; by simplify_map_eq.
Qed.


End Virial.

(** ** The loader *)

(** C3, as the program has it.  When [np.loadtxt] gives a table of two
    columns, the loader succeeds whatever the values in the table are: its
    [r] is the first column, its [g] the second, and [w] has the length of
    [g] with [w = -ln g] at every position where [g] is positive.  A
    [g] that is zero or negative is not rejected. *)
Theorem init_loads_any_two_columns (fs : filesystem) (filename : string)
    (nrows : nat) (entry : nat -> nat -> R) :
  fs filename = Some (Ok (np.Array2 nrows 2 entry)) ->
  exists rdf,
    RadialDistributionFunction.init fs filename = Ok rdf /\
    RadialDistributionFunction.r rdf
    = map (fun i => entry i 0%nat) (seq 0 nrows) /\
    RadialDistributionFunction.g rdf
    = map (fun i => entry i 1%nat) (seq 0 nrows) /\
    length (RadialDistributionFunction.w rdf)
    = length (RadialDistributionFunction.g rdf) /\
    forall i gi,
      RadialDistributionFunction.g rdf !! i = Some gi ->
      0 < gi ->
      RadialDistributionFunction.w rdf !! i = Some (- ln gi).
Proof.
  intros Hfile. eexists. split.
  { unfold RadialDistributionFunction.init. rewrite Hfile. by cbn. }
  cbn. split; [done|]. split; [done|]. split.
  - unfold np.negative, np.log. by rewrite !length_map.
  - intros i gi Hi _. unfold np.negative, np.log.
    rewrite map_map. change (map ?f ?l) with (f <$> l) in *.
    rewrite list_lookup_fmap in Hi. rewrite !list_lookup_fmap.
    destruct (seq 0 nrows !! i) as [k|]; [|done]. cbn in *. congruence.
Qed.

(** ** The fit step *)

Section Fit.

Variable pot : potential.
Variable minpack :
  potential -> list R -> list R -> list R -> outcome (list R).



End Fit.

(** * Worked examples *)

Lemma largest_unique (m m' : R) (xs : list R) :
  largest m xs -> largest m' xs -> m = m'.
Proof.
  intros [Hin Hall] [Hin' Hall']. rewrite Forall_forall in Hall, Hall'.
  specialize (Hall m' Hin'). specialize (Hall' m Hin). cbn in *. lra.
Qed.

Lemma largest_max (xs : list R) (m : R) :
  largest m xs -> py.max xs = Ok m.
Proof.
  intros Hm. destruct (max_succeeds xs) as [m' Hm'].
  { destruct Hm as [Hin _]. intros ->. by apply elem_of_nil in Hin. }
  rewrite Hm'. f_equal. eapply largest_unique; [|exact Hm].
  by apply max_largest.
Qed.

(** The sample series is what the loader makes of the sample file. *)
Lemma sample_loaded :
  RadialDistributionFunction.init sample_fs "gofr.dat" = Ok sample_rdf.
Proof.
  unfold RadialDistributionFunction.init, sample_fs, sample_rdf.
  rewrite decide_True by done. cbn.
  rewrite !decide_True by (first [done|lia]). cbn.
  rewrite ln_1, ln_exp. do 2 f_equal. repeat f_equal; lra.
Qed.

Lemma sample_arange :
  np.arange 2 (4 * 3) (2 - 1) = Ok [2; 3; 4; 5; 6; 7; 8; 9; 10; 11].
Proof.
  rewrite arange_nonzero by lra.
  replace ((4 * 3 - 2) / (2 - 1)) with (IZR 10) by lra.
  rewrite ceil_IZR. f_equal. unfold grid.
  change (Z.to_nat 10) with 10%nat. cbn [seq map INR].
  repeat f_equal; lra.
Qed.

Lemma sample_head : head_points sample_rdf 1 2 = [(1, -1); (2, -1)].
Proof.
  unfold head_points, shifted_points, sample_rdf.
  cbn [RadialDistributionFunction.r RadialDistributionFunction.w
       map zip_with].
  rewrite filter_cons_True by (cbn; lra).
  rewrite filter_cons_True by (cbn; lra).
  rewrite filter_cons_False by (cbn; lra).
  rewrite filter_cons_False by (cbn; lra).
  rewrite filter_nil. repeat f_equal; lra.
Qed.

Lemma sample_shifted :
  shifted_points sample_rdf 1 = [(1, -1); (2, -1); (3, 1); (4, -1)].
Proof.
  unfold shifted_points, sample_rdf.
  cbn [RadialDistributionFunction.r RadialDistributionFunction.w
       map zip_with].
  repeat f_equal; lra.
Qed.

(** The merge with the model tail on the sample series, fit range
    [[2, 3]], potential ['zero'], fitted parameters [a = [1]]. *)
Lemma sample_merge :
  main_merge pot_zero false sample_rdf [1] (2, 3)
  = Ok (RadialDistributionFunction.mk
          [1; 2; 3; 4] [1; 1; exp (-2); 1] [-1; -1; 1; -1],
        [0],
        ([1; 2; 2; 3; 4; 5; 6; 7; 8; 9; 10; 11],
         [-1; -1; 0; 0; 0; 0; 0; 0; 0; 0; 0; 0])).
Proof.
  rewrite (main_merge_splice pot_zero sample_rdf [1] (2, 3) 1 2 1
             [2; 3; 4; 5; 6; 7; 8; 9; 10; 11]
             [0; 0; 0; 0; 0; 0; 0; 0; 0; 0]); try done.
  - change (fst (2, 3)) with 2. rewrite sample_head.
    unfold sample_rdf, np.subtract_scalar.
    cbn [RadialDistributionFunction.r RadialDistributionFunction.g
         RadialDistributionFunction.w map fmap list_fmap fst snd app].
    repeat f_equal; lra.
  - apply sample_arange.
  - unfold pot_zero, py.setitem_last. cbn. repeat f_equal; lra.
Qed.

Lemma pot_zero_elementwise (a0 : R) (rest xs : list R) :
  exists ys, pot_zero xs (a0 :: rest) = Ok ys /\ length ys = length xs.
Proof. eexists. split; [done|]. apply length_map. Qed.

(** ** Where the program departs from a statement *)


(** C3: a file whose first row has [g = 0] is loaded, not rejected. *)
Lemma loader_accepts_zero_g :
  exists rdf,
    RadialDistributionFunction.init zero_g_fs "gofr.dat" = Ok rdf /\
    RadialDistributionFunction.r rdf = [1; 2] /\
    RadialDistributionFunction.g rdf = [0; 1] /\
    0 <= 0.
Proof.
  eexists. split.
  { unfold RadialDistributionFunction.init, zero_g_fs.
    rewrite decide_True by done. by cbn. }
  cbn. repeat split; [done..|lra].
Qed.


(** C5: on the sample series with fit range [[2, 3]] the merged curve
    has the point [(2, 0)], the first of the model tail: its [r] is
    [<= rmin_fit = 2], and it is none of the shifted measured points, the
    one at [r = 2] being [(2, -1)]. *)
Lemma splice_boundary_point_is_model :
  main_merge pot_zero false sample_rdf [1] (2, 3)
  = Ok (RadialDistributionFunction.mk
          [1; 2; 3; 4] [1; 1; exp (-2); 1] [-1; -1; 1; -1],
        [0],
        ([1; 2; 2; 3; 4; 5; 6; 7; 8; 9; 10; 11],
         [-1; -1; 0; 0; 0; 0; 0; 0; 0; 0; 0; 0])) /\
  (2, 0) ∈ zip [1; 2; 2; 3; 4; 5; 6; 7; 8; 9; 10; 11]
               [-1; -1; 0; 0; 0; 0; 0; 0; 0; 0; 0; 0] /\
  2 <= fst (2, 3) /\
  shifted_points sample_rdf 1 = [(1, -1); (2, -1); (3, 1); (4, -1)] /\
  (2, 0) ∉ shifted_points sample_rdf 1.
Proof.
  split; [apply sample_merge|].
  split; [cbn; set_solver|].
  split; [cbn; lra|].
  split; [apply sample_shifted|].
  rewrite sample_shifted. intros Hin.
  repeat (apply elem_of_cons in Hin as [Hin|Hin];
          [apply pair_equal_spec in Hin as [Hr Hw]; lra|]).
  by apply elem_of_nil in Hin.
Qed.

(** C9: an ideal gas measured at [r = 1, 2] and merged with the model
    tail of the potential ['zero'] over the fit range [[0, 1]] gives the
    curve [r = [0; 1; 2; 3]], [w = 0].  On it ['hs'] and ['tot'] are both
    zero and ['reduced'] is not 1: the quotient is not a finite number. *)
Lemma ideal_gas_from_zero_not_reduced_1 :
  main_merge pot_zero false ideal_rdf [0] (0, 1)
  = Ok (RadialDistributionFunction.mk [1; 2] [1; 1] [0; 0], [0],
        ([0; 1; 2; 3], [0; 0; 0; 0])) /\
  exists b2,
    VirialCoefficient sample_N_A [0; 1; 2; 3] [0; 0; 0; 0] (0, 0) = Ok b2 /\
    b2 !! "hs" = Some (Number (np.Finite 0)) /\
    b2 !! "tot" = Some (Number (np.Finite 0)) /\
    b2 !! "reduced" = Some (Number np.NotFinite) /\
    b2 !! "reduced" <> Some (Number (np.Finite 1)).
Proof.
  split.
  { rewrite (main_merge_splice pot_zero ideal_rdf [0] (0, 1) 1 2 0
               [0; 1; 2; 3] [0; 0; 0; 0]); try done.
    - change (fst (0, 1)) with 0.
      unfold head_points, shifted_points, ideal_rdf, np.subtract_scalar.
      cbn [RadialDistributionFunction.r RadialDistributionFunction.g
           RadialDistributionFunction.w map zip_with].
      rewrite filter_cons_False by (cbn; lra).
      rewrite filter_cons_False by (cbn; lra).
      rewrite filter_nil. cbn [fmap list_fmap app].
      repeat f_equal; lra.
    - change (fst (0, 1)) with 0. change (snd (0, 1)) with 1.
      rewrite arange_nonzero by lra.
      replace ((4 * 1 - 0) / (2 - 1)) with (IZR 4) by lra.
      rewrite ceil_IZR. f_equal. unfold grid.
      change (Z.to_nat 4) with 4%nat. cbn [seq map INR].
      repeat f_equal; lra.
    - unfold pot_zero, py.setitem_last. cbn. repeat f_equal; lra. }
  assert (Hmin : smallest 0 [0; 1; 2; 3])
    by (split; [set_solver|forall_reals]).
  destruct (VirialCoefficient_runs sample_N_A [0; 1; 2; 3] [0; 0; 0; 0]
              (0, 0) 0 eq_refl Hmin) as [rmax Hrun].
  cbn zeta in Hrun. rewrite decide_False in Hrun by (cbn; lra).
  assert (Hhs : 2 * PI / 3 * 0 ^ 3 = 0) by lra.
  assert (Htot : 2 * PI / 3 * 0 ^ 3
                 + trapezoid (zip [0; 1; 2; 3]
                                (zip_with virial_integrand
                                   [0; 1; 2; 3] [0; 0; 0; 0])) = 0).
  { rewrite trapezoid_zero; [lra|].
    cbn [zip_with]. unfold virial_integrand. rewrite Ropp_0, exp_0.
    forall_reals. }
  rewrite Htot, Hhs in Hrun.
  eexists. split; [exact Hrun|].
  unfold np.true_divide. rewrite decide_True by done.
  by simplify_map_eq.
Qed.

(** ** The statements at sample inputs *)

Lemma sample_grid_nondecreasing : nondecreasing [1; 2; 3; 4].
Proof.
  unfold nondecreasing.
  repeat (apply StronglySorted_cons; split; [forall_reals|]).
  constructor.
Qed.

Lemma pot_zero_succeeds (xs : list R) :
  succeeds (pot_zero xs (py.setitem_last [1] 0)).
Proof. by eexists. Qed.

Lemma VirialCoefficient_formulas_witness :
  exists b2 rmin hs tot,
    VirialCoefficient sample_N_A [1; 2] [0; 0] (0, 0) = Ok b2 /\
    smallest rmin [1; 2] /\
    hs = 2 * PI / 3 * rmin ^ 3 /\
    tot = hs + trapezoid (zip [1; 2]
                            (zip_with virial_integrand [1; 2] [0; 0])) /\
    b2 !! "hs" = Some (Number (np.Finite hs)) /\
    b2 !! "tot" = Some (Number (np.Finite tot)) /\
    (hs <> 0 -> b2 !! "reduced" = Some (Number (np.Finite (tot / hs)))) /\
    (hs = 0 -> b2 !! "reduced" = Some (Number np.NotFinite)).
Proof.
  apply (VirialCoefficient_formulas sample_N_A [1; 2] [0; 0] (0, 0));
    [discriminate|reflexivity].
Defined.


Lemma init_loads_any_two_columns_witness :
  exists rdf,
    RadialDistributionFunction.init zero_g_fs "gofr.dat" = Ok rdf /\
    RadialDistributionFunction.r rdf
    = map (fun i => nth 0 (nth i [[1; 0]; [2; 1]] []) 0) (seq 0 2) /\
    RadialDistributionFunction.g rdf
    = map (fun i => nth 1 (nth i [[1; 0]; [2; 1]] []) 0) (seq 0 2) /\
    length (RadialDistributionFunction.w rdf)
    = length (RadialDistributionFunction.g rdf) /\
    forall i gi,
      RadialDistributionFunction.g rdf !! i = Some gi ->
      0 < gi ->
      RadialDistributionFunction.w rdf !! i = Some (- ln gi).
Proof.
  apply (init_loads_any_two_columns zero_g_fs "gofr.dat" 2
           (fun i j => nth j (nth i [[1; 0]; [2; 1]] []) 0)).
  unfold zero_g_fs. by rewrite decide_True.
Defined.


Lemma splice_head_is_shifted_data_witness :
  exists rdf' a' r w,
    main_merge pot_zero false sample_rdf [1] (2, 3)
    = Ok (rdf', a', (r, w)) /\
    take (length (head_points sample_rdf 1 (fst (2, 3)))) (zip r w)
    = head_points sample_rdf 1 (fst (2, 3)) /\
    Forall (fun p => fst (2, 3) <= fst p)
           (drop (length (head_points sample_rdf 1 (fst (2, 3))))
                 (zip r w)) /\
    forall p, p ∈ zip r w -> fst p < fst (2, 3) ->
              p ∈ shifted_points sample_rdf 1.
Proof.
  apply (splice_head_is_shifted_data pot_zero sample_rdf [1] (2, 3) 1 2 1).
  - reflexivity.
  - reflexivity.
  - lra.
  - reflexivity.
  - reflexivity.
  - apply pot_zero_succeeds.
Defined.

Lemma shiftonly_subtracts_last_parameter_witness :
  exists r w,
    main_merge pot_zero true sample_rdf [1] (2, 3)
    = Ok (sample_rdf, [1], (r, w)) /\
    r = RadialDistributionFunction.r sample_rdf /\
    length w = length (RadialDistributionFunction.w sample_rdf) /\
    forall i wi,
      RadialDistributionFunction.w sample_rdf !! i = Some wi ->
      w !! i = Some (wi - 1).
Proof.
  apply (shiftonly_subtracts_last_parameter pot_zero sample_rdf [1]
           (2, 3) 1).
  reflexivity.
Defined.

Lemma slice_selects_closed_interval_witness :
  exists rs gs,
    RadialDistributionFunction.slice sample_rdf 2 3 = Ok (rs, gs) /\
    length rs = length gs /\
    zip rs gs
    = points_within 2 3
        (zip (RadialDistributionFunction.r sample_rdf)
             (RadialDistributionFunction.g sample_rdf)) /\
    (forall M, py.max (RadialDistributionFunction.r sample_rdf) = Ok M ->
               2 > M -> rs = [] /\ gs = []) /\
    (forall m, py.min (RadialDistributionFunction.r sample_rdf) = Ok m ->
               3 < m -> rs = [] /\ gs = []).
Proof.
  apply (slice_selects_closed_interval sample_rdf 2 3). reflexivity.
Defined.

Lemma VirialCoefficient_molar_units_witness :
  exists b2 tot,
    VirialCoefficient sample_N_A [1; 2] [0; 0] (14300, 14300) = Ok b2 /\
    b2 !! "tot" = Some (Number (np.Finite tot)) /\
    (is_Some (b2 !! "mlmol/g2")
     <-> 0 < fst (14300, 14300) /\ 0 < snd (14300, 14300)) /\
    (0 < fst (14300, 14300) -> 0 < snd (14300, 14300) ->
     b2 !! "mlmol/g2"
     = Some (Number (np.Finite (tot * sample_N_A * 1e-24
                                / fst (14300, 14300)
                                / snd (14300, 14300))))).
Proof.
  apply (VirialCoefficient_molar_units sample_N_A [1; 2] [0; 0]
           (14300, 14300)); [discriminate|reflexivity].
Defined.

Lemma VirialCoefficient_ideal_gas_witness :
  exists b2 rmin hs,
    VirialCoefficient sample_N_A [1; 2] [0; 0] (0, 0) = Ok b2 /\
    smallest rmin [1; 2] /\
    b2 !! "hs" = Some (Number (np.Finite hs)) /\
    b2 !! "tot" = Some (Number (np.Finite hs)) /\
    (rmin <> 0 -> b2 !! "reduced" = Some (Number (np.Finite 1))).
Proof.
  apply (VirialCoefficient_ideal_gas sample_N_A [1; 2] [0; 0] (0, 0));
    [discriminate|reflexivity|].
  repeat (apply List.Forall_cons; [reflexivity|]). apply List.Forall_nil.
Defined.


(** * Further properties *)

(** ** The loader *)

(** X1.  The loader returns a series exactly when [np.loadtxt] gives a
    table of two columns, and the series is then the two columns with
    [w = -log(g)]. *)
Theorem init_succeeds_iff (fs : filesystem) (filename : string)
    (rdf : RadialDistributionFunction.t) :
  RadialDistributionFunction.init fs filename = Ok rdf <->
  exists nrows entry,
    fs filename = Some (Ok (np.Array2 nrows 2 entry)) /\
    rdf = RadialDistributionFunction.mk
            (map (fun i => entry i 0%nat) (seq 0 nrows))
            (map (fun i => entry i 1%nat) (seq 0 nrows))
            (np.negative
               (np.log (map (fun i => entry i 1%nat) (seq 0 nrows)))).
Proof.
  unfold RadialDistributionFunction.init. split.
  - destruct (fs filename) as [[d| |]|]; try done.
    destruct d as [x|xs|nrows ncols entry]; try done. cbn.
    destruct (decide (ncols = 2%nat)) as [->|]; [|done].
    cbn. intros [= <-]. by exists nrows, entry.
  - intros (nrows & entry & -> & ->). by cbn.
Qed.

(** X2.  The loader ends the process with its message when the file is
    missing and when the table read has a number of columns other than
    two. *)
Theorem init_exits_with_message (fs : filesystem) (filename : string) :
  fs filename = None \/
  (exists nrows ncols entry,
     fs filename = Some (Ok (np.Array2 nrows ncols entry)) /\
     ncols <> 2%nat) ->
  RadialDistributionFunction.init fs filename
  = Exit ("Error loading g(r) from " +:+ filename +:+
          " -- file does not exist or wrong format.").
Proof.
  unfold RadialDistributionFunction.init.
  intros [->|(nrows & ncols & entry & -> & Hcols)]; [done|].
  cbn. by rewrite decide_False.
Qed.

Lemma init_exits_with_message_witness :
  RadialDistributionFunction.init sample_fs "missing.dat"
  = Exit ("Error loading g(r) from " +:+ "missing.dat" +:+
          " -- file does not exist or wrong format.").
Proof.
  apply (init_exits_with_message sample_fs "missing.dat").
  left. unfold sample_fs. by rewrite decide_False.
Defined.

(** X3.  When [np.loadtxt] gives an array of fewer than two dimensions,
    the loader does not exit with its message: [d.shape[1]] raises
    [IndexError]. *)
Theorem init_raises_on_flat_array (fs : filesystem) (filename : string)
    (d : np.ndarray) :
  fs filename = Some (Ok d) ->
  (length (np.shape d) < 2)%nat ->
  RadialDistributionFunction.init fs filename = Raise "IndexError".
Proof.
  unfold RadialDistributionFunction.init. intros -> Hdim.
  destruct d as [x|xs|nrows ncols entry]; cbn in *; [done|done|lia].
Qed.

Lemma init_raises_on_flat_array_witness :
  RadialDistributionFunction.init
    (fun _ => Some (Ok (np.Array1 [1; 0.5]))) "gofr.dat"
  = Raise "IndexError".
Proof.
  apply (init_raises_on_flat_array
           (fun _ => Some (Ok (np.Array1 [1; 0.5]))) "gofr.dat"
           (np.Array1 [1; 0.5])).
  - reflexivity.
  - cbn. lia.
Defined.

Lemma init_lengths (fs : filesystem) (filename : string)
    (rdf : RadialDistributionFunction.t) :
  RadialDistributionFunction.init fs filename = Ok rdf ->
  length (RadialDistributionFunction.r rdf)
  = length (RadialDistributionFunction.g rdf) /\
  length (RadialDistributionFunction.g rdf)
  = length (RadialDistributionFunction.w rdf).
Proof.
  intros Hinit. apply init_succeeds_iff in Hinit
    as (nrows & entry & _ & ->).
  cbn. unfold np.negative, np.log. by rewrite !length_map.
Qed.

(** X4.  Every series that the loader returns can be sliced: [slice]
    succeeds on it for all bounds and selects the points of the closed
    interval. *)
Theorem loaded_series_slices (fs : filesystem) (filename : string)
    (rdf : RadialDistributionFunction.t) (rmin rmax : R) :
  RadialDistributionFunction.init fs filename = Ok rdf ->
  exists rs gs,
    RadialDistributionFunction.slice rdf rmin rmax = Ok (rs, gs) /\
    zip rs gs
    = points_within rmin rmax
        (zip (RadialDistributionFunction.r rdf)
             (RadialDistributionFunction.g rdf)).
Proof.
  intros Hinit. destruct (init_lengths _ _ _ Hinit) as [Hlen _].
  eexists _, _. split; [by apply slice_runs|]. apply zip_fst_snd.
Qed.

Lemma loaded_series_slices_witness :
  exists rs gs,
    RadialDistributionFunction.slice sample_rdf 2 3 = Ok (rs, gs) /\
    zip rs gs
    = points_within 2 3
        (zip (RadialDistributionFunction.r sample_rdf)
             (RadialDistributionFunction.g sample_rdf)).
Proof.
  apply (loaded_series_slices sample_fs "gofr.dat" sample_rdf 2 3).
  apply sample_loaded.
Defined.

(** ** Range selection *)

(** X5.  A range given the wrong way round, [rmax < rmin], selects
    nothing. *)
Theorem slice_inverted_range (rdf : RadialDistributionFunction.t)
    (rmin rmax : R) :
  length (RadialDistributionFunction.r rdf)
  = length (RadialDistributionFunction.g rdf) ->
  rmax < rmin ->
  RadialDistributionFunction.slice rdf rmin rmax = Ok ([], []).
Proof.
  intros Hlen Hinv. rewrite slice_runs by done. cbn zeta.
  unfold points_within. rewrite (filter_none _ _); [done|].
  intros [x y] _. cbn. lra.
Qed.

Lemma slice_inverted_range_witness :
  RadialDistributionFunction.slice sample_rdf 3 2 = Ok ([], []).
Proof.
  apply (slice_inverted_range sample_rdf 3 2); [reflexivity|lra].
Defined.

Lemma filter_all {A} (P : A -> Prop) `{!forall x, Decision (P x)}
    (l : list A) :
  (forall x, x ∈ l -> P x) -> filter P l = l.
Proof.
  induction l as [|x l IH]; intros Hall; [done|].
  rewrite filter_cons_True by (apply Hall; left).
  f_equal. apply IH. intros y Hy. apply Hall. by right.
Qed.

(** X6.  A range that covers every [r] of the series returns the series
    whole: [r] and [g] unchanged. *)
Theorem slice_covering_range (rdf : RadialDistributionFunction.t)
    (rmin rmax : R) :
  length (RadialDistributionFunction.r rdf)
  = length (RadialDistributionFunction.g rdf) ->
  Forall (fun x => rmin <= x <= rmax) (RadialDistributionFunction.r rdf) ->
  RadialDistributionFunction.slice rdf rmin rmax
  = Ok (RadialDistributionFunction.r rdf, RadialDistributionFunction.g rdf).
Proof.
  intros Hlen Hall. rewrite slice_runs by done. cbn zeta.
  unfold points_within. rewrite filter_all.
  - by rewrite fst_zip, snd_zip by lia.
  - intros [x y] Hin. apply elem_of_zip_l in Hin.
    rewrite Forall_forall in Hall. by apply Hall.
Qed.

Lemma slice_covering_range_witness :
  RadialDistributionFunction.slice sample_rdf 1 4
  = Ok (RadialDistributionFunction.r sample_rdf,
        RadialDistributionFunction.g sample_rdf).
Proof.
  apply (slice_covering_range sample_rdf 1 4); [reflexivity|].
  cbn. forall_reals.
Defined.

(** ** The volume element *)

Lemma ln_powerRZ (x : R) (n : Z) :
  0 < x -> ln (powerRZ x n) = IZR n * ln x.
Proof.
  intros Hx. destruct n as [|p|p]; cbn [powerRZ].
  - rewrite ln_1. lra.
  - rewrite ln_pow by done. by rewrite INR_IZR_INZ, positive_nat_Z.
  - rewrite ln_Rinv by (by apply pow_lt). rewrite ln_pow by done.
    rewrite INR_IZR_INZ, positive_nat_Z.
    change (Z.neg p) with (- Z.pos p)%Z. rewrite opp_IZR. lra.
Qed.

Lemma normalizeVolume_runs (rdf : RadialDistributionFunction.t) (dim : Z) :
  length (RadialDistributionFunction.r rdf)
  = length (RadialDistributionFunction.g rdf) ->
  let g' := zip_with Rdiv (RadialDistributionFunction.g rdf)
              (np.power_int (RadialDistributionFunction.r rdf) (dim - 1)) in
  RadialDistributionFunction.normalizeVolume rdf dim
  = Ok (RadialDistributionFunction.mk (RadialDistributionFunction.r rdf)
          g' (np.negative (np.log g'))).
Proof.
  intros Hlen. unfold RadialDistributionFunction.normalizeVolume, np.divide.
  rewrite broadcast_same_length; [done|].
  unfold np.power_int. by rewrite length_map.
Qed.

Lemma lookup_normalized (r g : list R) (k : Z) (i : nat) (ri gi : R) :
  r !! i = Some ri ->
  g !! i = Some gi ->
  zip_with Rdiv g (np.power_int r k) !! i = Some (gi / powerRZ ri k).
Proof.
  intros Hr Hg. unfold np.power_int.
  change (map ?f ?l) with (f <$> l).
  by rewrite lookup_zip_with, Hg, list_lookup_fmap, Hr.
Qed.

(** X7.  [normalizeVolume(dim)] keeps [r], divides each [g] by its
    [r ** (dim-1)] (so that, where [r] is not zero, the new [g] times
    [r ** (dim-1)] is the old one), and sets [w] to [-log] of the new
    [g]. *)
Theorem normalizeVolume_divides (rdf : RadialDistributionFunction.t)
    (dim : Z) :
  length (RadialDistributionFunction.r rdf)
  = length (RadialDistributionFunction.g rdf) ->
  exists rdf',
    RadialDistributionFunction.normalizeVolume rdf dim = Ok rdf' /\
    RadialDistributionFunction.r rdf' = RadialDistributionFunction.r rdf /\
    length (RadialDistributionFunction.g rdf')
    = length (RadialDistributionFunction.g rdf) /\
    RadialDistributionFunction.w rdf'
    = np.negative (np.log (RadialDistributionFunction.g rdf')) /\
    forall i ri gi,
      RadialDistributionFunction.r rdf !! i = Some ri ->
      RadialDistributionFunction.g rdf !! i = Some gi ->
      ri <> 0 ->
      exists gi',
        RadialDistributionFunction.g rdf' !! i = Some gi' /\
        gi' * powerRZ ri (dim - 1) = gi.
Proof.
  intros Hlen. eexists. split; [by apply normalizeVolume_runs|]. cbn.
  split; [done|]. split.
  { rewrite length_zip_with_l_eq; [done|].
    unfold np.power_int. by rewrite length_map. }
  split; [done|].
  intros i ri gi Hr Hg Hnz. eexists. split.
  - by apply lookup_normalized.
  - field. by apply powerRZ_NOR.
Qed.

Lemma normalizeVolume_divides_witness :
  exists rdf',
    RadialDistributionFunction.normalizeVolume sample_rdf 3 = Ok rdf' /\
    RadialDistributionFunction.r rdf'
    = RadialDistributionFunction.r sample_rdf /\
    length (RadialDistributionFunction.g rdf')
    = length (RadialDistributionFunction.g sample_rdf) /\
    RadialDistributionFunction.w rdf'
    = np.negative (np.log (RadialDistributionFunction.g rdf')) /\
    forall i ri gi,
      RadialDistributionFunction.r sample_rdf !! i = Some ri ->
      RadialDistributionFunction.g sample_rdf !! i = Some gi ->
      ri <> 0 ->
      exists gi',
        RadialDistributionFunction.g rdf' !! i = Some gi' /\
        gi' * powerRZ ri (3 - 1) = gi.
Proof.
  apply (normalizeVolume_divides sample_rdf 3). reflexivity.
Defined.

(** X8.  At a point with [r > 0] and [g > 0], [normalizeVolume(dim)]
    leaves [w = -ln g + (dim-1) ln r]: for a series with [w = -ln g]
    before, it adds [(dim-1) ln r] to [w]. *)
Theorem normalizeVolume_adds_log (rdf : RadialDistributionFunction.t)
    (dim : Z) (i : nat) (ri gi : R) :
  length (RadialDistributionFunction.r rdf)
  = length (RadialDistributionFunction.g rdf) ->
  RadialDistributionFunction.r rdf !! i = Some ri ->
  RadialDistributionFunction.g rdf !! i = Some gi ->
  0 < ri ->
  0 < gi ->
  exists rdf',
    RadialDistributionFunction.normalizeVolume rdf dim = Ok rdf' /\
    RadialDistributionFunction.w rdf' !! i
    = Some (- ln gi + IZR (dim - 1) * ln ri).
Proof.
  intros Hlen Hr Hg Hri Hgi. eexists.
  split; [by apply normalizeVolume_runs|]. cbn.
  unfold np.negative, np.log. rewrite map_map.
  change (map ?f ?l) with (f <$> l).
  rewrite list_lookup_fmap, (lookup_normalized _ _ _ _ ri gi) by done.
  cbn. f_equal. unfold Rdiv.
  rewrite ln_mult, ln_Rinv, ln_powerRZ; try done.
  - lra.
  - by apply powerRZ_lt.
  - apply Rinv_0_lt_compat. by apply powerRZ_lt.
Qed.

Lemma normalizeVolume_adds_log_witness :
  exists rdf',
    RadialDistributionFunction.normalizeVolume sample_rdf 3 = Ok rdf' /\
    RadialDistributionFunction.w rdf' !! 1%nat
    = Some (- ln 1 + IZR (3 - 1) * ln 2).
Proof.
  apply (normalizeVolume_adds_log sample_rdf 3 1 2 1);
    [reflexivity|reflexivity|reflexivity|lra|lra].
Defined.

(** X9.  On a series whose three arrays have one length, the unit and
    volume step of the program never fails; it keeps the three lengths
    equal, and [r] is multiplied by 10 exactly when [-nm] is given. *)
Theorem main_units_keeps_series (nm : bool) (norm : string)
    (rdf : RadialDistributionFunction.t) :
  length (RadialDistributionFunction.r rdf)
  = length (RadialDistributionFunction.g rdf) ->
  length (RadialDistributionFunction.g rdf)
  = length (RadialDistributionFunction.w rdf) ->
  exists rdf',
    main_units nm norm rdf = Ok rdf' /\
    RadialDistributionFunction.r rdf'
    = (if nm then np.scalar_multiply 10 (RadialDistributionFunction.r rdf)
       else RadialDistributionFunction.r rdf) /\
    length (RadialDistributionFunction.r rdf')
    = length (RadialDistributionFunction.g rdf') /\
    length (RadialDistributionFunction.g rdf')
    = length (RadialDistributionFunction.w rdf').
Proof.
  intros Hrg Hgw. unfold main_units.
  set (rdf0 := if nm then _ else rdf).
  assert (Hr0 : RadialDistributionFunction.r rdf0
                = if nm
                  then np.scalar_multiply 10 (RadialDistributionFunction.r rdf)
                  else RadialDistributionFunction.r rdf)
    by (unfold rdf0; by destruct nm).
  assert (Hg0 : RadialDistributionFunction.g rdf0
                = RadialDistributionFunction.g rdf)
    by (unfold rdf0; by destruct nm).
  assert (Hw0 : RadialDistributionFunction.w rdf0
                = RadialDistributionFunction.w rdf)
    by (unfold rdf0; by destruct nm).
  assert (Hlen0 : length (RadialDistributionFunction.r rdf0)
                  = length (RadialDistributionFunction.g rdf0)).
  { rewrite Hr0, Hg0. destruct nm; [|done].
    unfold np.scalar_multiply. by rewrite length_map. }
  clearbody rdf0.
  assert (Hnorm : forall (x : RadialDistributionFunction.t) (dim : Z),
            length (RadialDistributionFunction.r x)
            = length (RadialDistributionFunction.g x) ->
            exists x',
              RadialDistributionFunction.normalizeVolume x dim = Ok x' /\
              RadialDistributionFunction.r x' = RadialDistributionFunction.r x /\
              length (RadialDistributionFunction.r x')
              = length (RadialDistributionFunction.g x') /\
              length (RadialDistributionFunction.g x')
              = length (RadialDistributionFunction.w x')).
  { intros x dim Hx. eexists. split; [by apply normalizeVolume_runs|]. cbn.
    split; [done|]. unfold np.negative, np.log, np.power_int.
    rewrite !length_map, length_zip_with_l_eq; [done|].
    by rewrite length_map. }
  destruct (decide (norm = "2d")) as [H2|H2].
  - destruct (Hnorm rdf0 2%Z Hlen0) as (x & -> & Hxr & Hx1 & Hx2). cbn.
    rewrite decide_False by (subst; done).
    exists x. repeat split; congruence.
  - cbn. destruct (decide (norm = "3d")) as [H3|H3].
    + destruct (Hnorm rdf0 3%Z Hlen0) as (x & -> & Hxr & Hx1 & Hx2).
      exists x. repeat split; congruence.
    + exists rdf0. repeat split; congruence.
Qed.

Lemma main_units_keeps_series_witness :
  exists rdf',
    main_units true "3d" sample_rdf = Ok rdf' /\
    RadialDistributionFunction.r rdf'
    = np.scalar_multiply 10 (RadialDistributionFunction.r sample_rdf) /\
    length (RadialDistributionFunction.r rdf')
    = length (RadialDistributionFunction.g rdf') /\
    length (RadialDistributionFunction.g rdf')
    = length (RadialDistributionFunction.w rdf').
Proof.
  apply (main_units_keeps_series true "3d" sample_rdf); reflexivity.
Defined.

(** ** The virial coefficient, further *)

Section VirialFurther.

Variable N_A : R.

Lemma VirialCoefficient_runs_max (r w : list R) (mw : R * R)
    (rmin rmax : R) :
  length r = length w ->
  smallest rmin r ->
  largest rmax r ->
  let hs := 2 * PI / 3 * rmin ^ 3 in
  let tot := hs + trapezoid (zip r (zip_with virial_integrand r w)) in
  let b2 : gmap string value :=
    <["range" := Numbers [0; rmax]]>
      (<["hsrange" := Numbers [0; rmin]]>
         (<["reduced" := Number (np.true_divide tot hs)]>
            (<["tot" := Number (np.Finite tot)]>
               (<["hs" := Number (np.Finite hs)]> ∅)))) in
  VirialCoefficient N_A r w mw
  = Ok (if decide (fst mw > 0 /\ snd mw > 0)
        then <["mlmol/g2" :=
                 Number (np.Finite
                           (tot * N_A * 1e-24 / fst mw / snd mw))]> b2
        else b2).
Proof.
  intros Hlen Hmin Hmax.
  destruct (VirialCoefficient_runs N_A r w mw rmin Hlen Hmin)
    as [rmax' Hrun].
  assert (Hne : r <> []).
  { destruct Hmin as [Hin _]. intros ->. by apply elem_of_nil in Hin. }
  assert (rmax' = rmax) as ->; [|exact Hrun].
  unfold VirialCoefficient in Hrun.
  rewrite (smallest_min r rmin Hmin) in Hrun. cbn in Hrun.
  rewrite (integrand_array r w Hlen) in Hrun. cbn in Hrun.
  rewrite trapz_is_trapezoid in Hrun by (by rewrite length_zip_with_l_eq).
  cbn in Hrun. rewrite (largest_max r rmax Hmax) in Hrun. cbn in Hrun.
  injection Hrun as Hrun.
  assert (Hlook : forall m m' : gmap string value,
            m = m' -> m !! "range" = m' !! "range") by (by intros ?? ->).
  apply Hlook in Hrun.
  repeat case_decide; simplify_map_eq; done.
Qed.

Lemma largest_exists (xs : list R) : xs <> [] -> exists m, largest m xs.
Proof.
  intros Hne. destruct (max_succeeds xs Hne) as [m Hm].
  exists m. by apply max_largest.
Qed.

(** X10.  For a curve with at least one point the dictionary has the
    keys ['hs'], ['tot'], ['reduced'], ['hsrange'] and ['range'], the
    key ['mlmol/g2'] under its condition, and no other; ['hsrange'] is
    [[0, rmin]] and ['range'] is [[0, rmax]] for the smallest and the
    largest [r]. *)
Theorem VirialCoefficient_keys (r w : list R) (mw : R * R) :
  r <> [] ->
  length r = length w ->
  exists b2 rmin rmax,
    VirialCoefficient N_A r w mw = Ok b2 /\
    smallest rmin r /\
    largest rmax r /\
    b2 !! "hsrange" = Some (Numbers [0; rmin]) /\
    b2 !! "range" = Some (Numbers [0; rmax]) /\
    forall k,
      is_Some (b2 !! k) <->
      k ∈ ["hs"; "tot"; "reduced"; "hsrange"; "range"] \/
      (k = "mlmol/g2" /\ fst mw > 0 /\ snd mw > 0).
Proof.
  intros Hne Hlen.
  destruct (smallest_exists r Hne) as [rmin Hmin].
  destruct (largest_exists r Hne) as [rmax Hmax].
  pose proof (VirialCoefficient_runs_max r w mw rmin rmax Hlen Hmin Hmax)
    as Hrun. cbn zeta in Hrun.
  eexists _, rmin, rmax. split; [exact Hrun|].
  split; [done|]. split; [done|].
  split; [case_decide; by simplify_map_eq|].
  split; [case_decide; by simplify_map_eq|].
  intros k. case_decide as Hmw.
  - rewrite !lookup_insert_is_Some', lookup_empty, is_Some_alt.
    rewrite !elem_of_cons, elem_of_nil. intuition (subst; auto 10).
  - rewrite !lookup_insert_is_Some', lookup_empty, is_Some_alt.
    rewrite !elem_of_cons, elem_of_nil. intuition (subst; auto 10).
Qed.

End VirialFurther.

Lemma VirialCoefficient_keys_witness :
  exists b2 rmin rmax,
    VirialCoefficient sample_N_A [1; 2] [0; 0] (0, 0) = Ok b2 /\
    smallest rmin [1; 2] /\
    largest rmax [1; 2] /\
    b2 !! "hsrange" = Some (Numbers [0; rmin]) /\
    b2 !! "range" = Some (Numbers [0; rmax]) /\
    forall k,
      is_Some (b2 !! k) <->
      k ∈ ["hs"; "tot"; "reduced"; "hsrange"; "range"] \/
      (k = "mlmol/g2" /\ fst (0, 0) > 0 /\ snd (0, 0) > 0).
Proof.
  apply (VirialCoefficient_keys sample_N_A [1; 2] [0; 0] (0, 0));
    [discriminate|reflexivity].
Defined.

Section VirialEdges.

Variable N_A : R.

(** X11.  [VirialCoefficient] raises [ValueError] on an empty [r]
    ([min] of an empty sequence) and on arrays [r] and [w] of two
    different lengths, both above one (they do not broadcast). *)
Theorem VirialCoefficient_rejects (r w : list R) (mw : R * R) :
  r = [] \/
  ((2 <= length r)%nat /\ (2 <= length w)%nat /\ length r <> length w) ->
  VirialCoefficient N_A r w mw = Raise "ValueError".
Proof.
  intros [->|(Hr & Hw & Hne)]; [reflexivity|].
  unfold VirialCoefficient.
  destruct (min_succeeds r) as [m ->]; [intros ->; cbn in Hr; lia|]. cbn.
  unfold np.multiply, np.broadcast.
  rewrite decide_False.
  2:{ unfold np.scalar_multiply, np.subtract_scalar, np.exp, np.negative,
        np.power. rewrite !length_map. congruence. }
  unfold np.scalar_multiply, np.subtract_scalar, np.exp, np.negative,
    np.power.
  destruct w as [|y0 [|y1 w]]; cbn in Hw; try lia.
  destruct r as [|x0 [|x1 r]]; cbn in Hr; try lia.
  done.
Qed.


(** X12.  A curve of a single point has no interval to integrate over:
    ['tot'] equals ['hs'], whatever [w] is there. *)
Theorem VirialCoefficient_single_point (x y : R) (mw : R * R) :
  exists b2,
    VirialCoefficient N_A [x] [y] mw = Ok b2 /\
    b2 !! "hs" = Some (Number (np.Finite (2 * PI / 3 * x ^ 3))) /\
    b2 !! "tot" = Some (Number (np.Finite (2 * PI / 3 * x ^ 3))).
Proof.
  assert (Hmin : smallest x [x]).
  { split; [left|]. apply Forall_cons; split; [lra|by apply Forall_nil]. }
  destruct (VirialCoefficient_runs N_A [x] [y] mw x eq_refl Hmin)
    as [rmax Hrun].
  cbn zeta in Hrun. cbn [zip_with trapezoid] in Hrun.
  rewrite Rplus_0_r in Hrun.
  eexists. split; [exact Hrun|].
  split; case_decide; by simplify_map_eq.
Qed.

End VirialEdges.

Lemma VirialCoefficient_rejects_witness :
  VirialCoefficient sample_N_A [1; 2; 3] [0; 0] (0, 0) = Raise "ValueError".
Proof.
  apply (VirialCoefficient_rejects sample_N_A [1; 2; 3] [0; 0] (0, 0)).
  right. cbn. lia.
Defined.

(** ** Signs and units of the virial coefficient *)

Lemma trapezoid_nonneg (xs ys : list R) :
  nondecreasing xs ->
  Forall (fun y => 0 <= y) ys ->
  0 <= trapezoid (zip xs ys).
Proof.
  intros Hxs Hys. revert xs Hxs.
  induction Hys as [|y0 ys Hy0 Hys IH]; intros [|x0 xs] Hxs;
    try (cbn; lra).
  destruct xs as [|x1 xs]; [cbn; lra|].
  destruct Hys as [|y1 ys Hy1 Hys]; [cbn; lra|].
  change (trapezoid (zip (x0 :: x1 :: xs) (y0 :: y1 :: ys)))
    with ((x1 - x0) * ((y0 + y1) / 2)
          + trapezoid (zip (x1 :: xs) (y1 :: ys))).
  apply StronglySorted_cons in Hxs as [Hx0 Hxs].
  apply Forall_cons in Hx0 as [Hx01 _].
  specialize (IH (x1 :: xs) Hxs).
  assert (0 <= (x1 - x0) * ((y0 + y1) / 2)) by nra.
  lra.
Qed.

Lemma trapezoid_opp (xs ys : list R) :
  trapezoid (zip xs (map Ropp ys)) = - trapezoid (zip xs ys).
Proof.
  revert ys. induction xs as [|x0 xs IH]; intros [|y0 ys];
    try (cbn; lra).
  destruct xs as [|x1 xs]; [cbn; lra|].
  destruct ys as [|y1 ys]; [cbn; lra|].
  change (trapezoid (zip (x0 :: x1 :: xs) (map Ropp (y0 :: y1 :: ys))))
    with ((x1 - x0) * ((- y0 + - y1) / 2)
          + trapezoid (zip (x1 :: xs) (map Ropp (y1 :: ys)))).
  change (trapezoid (zip (x0 :: x1 :: xs) (y0 :: y1 :: ys)))
    with ((x1 - x0) * ((y0 + y1) / 2)
          + trapezoid (zip (x1 :: xs) (y1 :: ys))).
  rewrite (IH (y1 :: ys)). lra.
Qed.

Lemma exp_opp_le_1 (w : R) : 0 <= w -> exp (- w) <= 1.
Proof.
  intros [Hw | <-].
  - rewrite <- exp_0. left. apply exp_increasing. lra.
  - rewrite Ropp_0, exp_0. lra.
Qed.

Lemma exp_opp_ge_1 (w : R) : w <= 0 -> 1 <= exp (- w).
Proof.
  intros [Hw | ->].
  - rewrite <- exp_0. left. apply exp_increasing. lra.
  - rewrite Ropp_0, exp_0. lra.
Qed.

Lemma integrand_sign (P Q : R -> Prop) (r w : list R) :
  (forall x v, P v -> Q (virial_integrand x v)) ->
  Forall P w ->
  Forall Q (zip_with virial_integrand r w).
Proof.
  intros HPQ Hw. revert r.
  induction Hw as [|v w Hv Hw IH]; intros [|x r]; cbn; try constructor.
  - by apply HPQ.
  - apply IH.
Qed.

Lemma integrand_repulsive (x v : R) : 0 <= v -> 0 <= virial_integrand x v.
Proof.
  intros Hv. unfold virial_integrand.
  pose proof PI_RGT_0. pose proof (exp_opp_le_1 v Hv).
  pose proof (pow2_ge_0 x).
  assert (0 <= PI * (1 - exp (- v))) by (apply Rmult_le_pos; lra).
  replace (-2 * PI * (exp (- v) - 1) * x ^ 2)
    with (2 * (PI * (1 - exp (- v))) * x ^ 2) by ring.
  generalize dependent (PI * (1 - exp (- v))).
  generalize dependent (x ^ 2). intros. nra.
Qed.

Lemma integrand_attractive (x v : R) : v <= 0 -> 0 <= - virial_integrand x v.
Proof.
  intros Hv. unfold virial_integrand.
  pose proof PI_RGT_0. pose proof (exp_opp_ge_1 v Hv).
  pose proof (pow2_ge_0 x).
  assert (0 <= PI * (exp (- v) - 1)) by (apply Rmult_le_pos; lra).
  replace (- (-2 * PI * (exp (- v) - 1) * x ^ 2))
    with (2 * (PI * (exp (- v) - 1)) * x ^ 2) by ring.
  generalize dependent (PI * (exp (- v) - 1)).
  generalize dependent (x ^ 2). intros. nra.
Qed.

Section VirialSigns.

Variable N_A : R.

(** X13.  On a curve whose grid never decreases and whose [w] is
    nowhere negative (a repulsive potential), ['tot'] is at least ['hs'];
    where [w] is nowhere positive (an attractive one), ['tot'] is at most
    ['hs']. *)
Theorem VirialCoefficient_sign (r w : list R) (mw : R * R) :
  r <> [] ->
  length r = length w ->
  nondecreasing r ->
  exists b2 hs tot,
    VirialCoefficient N_A r w mw = Ok b2 /\
    b2 !! "hs" = Some (Number (np.Finite hs)) /\
    b2 !! "tot" = Some (Number (np.Finite tot)) /\
    (Forall (fun v => 0 <= v) w -> hs <= tot) /\
    (Forall (fun v => v <= 0) w -> tot <= hs).
Proof.
  intros Hne Hlen Hsorted.
  destruct (smallest_exists r Hne) as [rmin Hmin].
  destruct (VirialCoefficient_runs N_A r w mw rmin Hlen Hmin) as [rmax Hrun].
  cbn zeta in Hrun.
  eexists _, _, _. split; [exact Hrun|].
  split; [case_decide; by simplify_map_eq|].
  split; [case_decide; by simplify_map_eq|].
  pose proof PI_RGT_0 as Hpi. split.
  - intros Hw.
    assert (0 <= trapezoid (zip r (zip_with virial_integrand r w))); [|lra].
    apply trapezoid_nonneg; [done|].
    apply (integrand_sign (fun v => 0 <= v)); [|done].
    intros x v Hv. by apply integrand_repulsive.
  - intros Hw.
    assert (0 <= - trapezoid (zip r (zip_with virial_integrand r w)));
      [|lra].
    rewrite <- trapezoid_opp. apply trapezoid_nonneg; [done|].
    apply Forall_fmap.
    apply (integrand_sign (fun v => v <= 0)); [|done].
    intros x v Hv. cbn. by apply integrand_attractive.
Qed.

End VirialSigns.

Lemma VirialCoefficient_sign_witness :
  exists b2 hs tot,
    VirialCoefficient sample_N_A [1; 2] [0.5; 0] (0, 0) = Ok b2 /\
    b2 !! "hs" = Some (Number (np.Finite hs)) /\
    b2 !! "tot" = Some (Number (np.Finite tot)) /\
    (Forall (fun v => 0 <= v) [0.5; 0] -> hs <= tot) /\
    (Forall (fun v => v <= 0) [0.5; 0] -> tot <= hs).
Proof.
  apply (VirialCoefficient_sign sample_N_A [1; 2] [0.5; 0] (0, 0));
    [discriminate|reflexivity|].
  unfold nondecreasing.
  repeat (apply StronglySorted_cons; split; [forall_reals|]).
  constructor.
Defined.

Lemma integrand_of_g (r g : list R) :
  Forall (fun x => 0 < x) g ->
  zip_with virial_integrand r (np.negative (np.log g))
  = zip_with (fun x gx => -2 * PI * (gx - 1) * x ^ 2) r g.
Proof.
  intros Hg. revert r. unfold np.negative, np.log.
  induction Hg as [|gx g Hgx Hg IH]; intros [|x r]; try done.
  cbn [map zip_with]. rewrite IH. f_equal.
  unfold virial_integrand. by rewrite Ropp_involutive, exp_ln.
Qed.

Lemma smallest_scaled (c m : R) (xs : list R) :
  0 < c -> smallest m xs -> smallest (c * m) (np.scalar_multiply c xs).
Proof.
  intros Hc [Hin Hall]. unfold np.scalar_multiply.
  change (map ?f ?l) with (f <$> l). split.
  - by apply list_elem_of_fmap_2.
  - apply Forall_fmap. eapply Forall_impl; [exact Hall|].
    cbn. intros x Hx. nra.
Qed.

Lemma integrand_scaled (c x v : R) :
  virial_integrand (c * x) v = c ^ 2 * virial_integrand x v.
Proof. unfold virial_integrand. ring. Qed.

Lemma trapezoid_scaled (c : R) (r w : list R) :
  trapezoid (zip (np.scalar_multiply c r)
               (zip_with virial_integrand (np.scalar_multiply c r) w))
  = c ^ 3 * trapezoid (zip r (zip_with virial_integrand r w)).
Proof.
  unfold np.scalar_multiply. revert w.
  induction r as [|x0 r IH]; intros [|v0 w]; try (cbn; lra).
  destruct r as [|x1 r]; [cbn; lra|].
  destruct w as [|v1 w]; [cbn; lra|].
  change (trapezoid (zip (map (fun x => c * x) (x0 :: x1 :: r))
                       (zip_with virial_integrand
                          (map (fun x => c * x) (x0 :: x1 :: r))
                          (v0 :: v1 :: w))))
    with ((c * x1 - c * x0)
          * ((virial_integrand (c * x0) v0 + virial_integrand (c * x1) v1)
             / 2)
          + trapezoid (zip (map (fun x => c * x) (x1 :: r))
                         (zip_with virial_integrand
                            (map (fun x => c * x) (x1 :: r)) (v1 :: w)))).
  change (trapezoid (zip (x0 :: x1 :: r)
                       (zip_with virial_integrand (x0 :: x1 :: r)
                          (v0 :: v1 :: w))))
    with ((x1 - x0)
          * ((virial_integrand x0 v0 + virial_integrand x1 v1) / 2)
          + trapezoid (zip (x1 :: r)
                         (zip_with virial_integrand (x1 :: r) (v1 :: w)))).
  rewrite (IH (v1 :: w)), !integrand_scaled. field.
Qed.

Lemma true_divide_scaled (k x y : R) :
  k <> 0 -> np.true_divide (k * x) (k * y) = np.true_divide x y.
Proof.
  intros Hk. unfold np.true_divide.
  destruct (decide (y = 0)) as [->|Hy].
  - rewrite decide_True; [done|lra].
  - rewrite decide_False by nra. f_equal. by field.
Qed.

Section VirialUnits.

Variable N_A : R.

(** X14.  On a series as the loader gives it, [w = -log(g)] with every
    [g] positive, the integral is taken of [-2 pi (g - 1) r^2]: ['tot']
    is ['hs'] plus the trapezoidal rule over that integrand. *)
Theorem VirialCoefficient_of_g (r g : list R) (mw : R * R) :
  r <> [] ->
  length r = length g ->
  Forall (fun x => 0 < x) g ->
  exists b2 rmin,
    VirialCoefficient N_A r (np.negative (np.log g)) mw = Ok b2 /\
    smallest rmin r /\
    b2 !! "tot"
    = Some (Number (np.Finite
         (2 * PI / 3 * rmin ^ 3
          + trapezoid
              (zip r (zip_with (fun x gx => -2 * PI * (gx - 1) * x ^ 2)
                        r g))))).
Proof.
  intros Hne Hlen Hg. destruct (smallest_exists r Hne) as [rmin Hmin].
  assert (Hlen' : length r = length (np.negative (np.log g))).
  { unfold np.negative, np.log. by rewrite !length_map. }
  destruct (VirialCoefficient_runs N_A r _ mw rmin Hlen' Hmin)
    as [rmax Hrun].
  cbn zeta in Hrun. rewrite (integrand_of_g r g Hg) in Hrun.
  eexists _, rmin. split; [exact Hrun|]. split; [done|].
  case_decide; by simplify_map_eq.
Qed.


(** X15.  Changing the unit of length, [r] multiplied by a factor
    [c > 0], multiplies ['hs'] and ['tot'] by [c^3] and leaves
    ['reduced'] as it was. *)
Theorem VirialCoefficient_rescale (c : R) (r w : list R) (mw : R * R) :
  r <> [] ->
  length r = length w ->
  0 < c ->
  exists b2 b2' hs tot,
    VirialCoefficient N_A r w mw = Ok b2 /\
    VirialCoefficient N_A (np.scalar_multiply c r) w mw = Ok b2' /\
    b2 !! "hs" = Some (Number (np.Finite hs)) /\
    b2 !! "tot" = Some (Number (np.Finite tot)) /\
    b2' !! "hs" = Some (Number (np.Finite (c ^ 3 * hs))) /\
    b2' !! "tot" = Some (Number (np.Finite (c ^ 3 * tot))) /\
    b2' !! "reduced" = b2 !! "reduced".
Proof.
  intros Hne Hlen Hc. destruct (smallest_exists r Hne) as [rmin Hmin].
  destruct (VirialCoefficient_runs N_A r w mw rmin Hlen Hmin) as [rmax Hrun].
  assert (Hlen' : length (np.scalar_multiply c r) = length w).
  { unfold np.scalar_multiply. by rewrite length_map. }
  destruct (VirialCoefficient_runs N_A _ w mw (c * rmin) Hlen'
              (smallest_scaled c rmin r Hc Hmin)) as [rmax' Hrun'].
  cbn zeta in Hrun, Hrun'. rewrite trapezoid_scaled in Hrun'.
  set (hs := 2 * PI / 3 * rmin ^ 3) in *.
  set (tot := hs + trapezoid (zip r (zip_with virial_integrand r w))) in *.
  assert (Hhs : 2 * PI / 3 * (c * rmin) ^ 3 = c ^ 3 * hs)
    by (unfold hs; ring).
  rewrite Hhs in Hrun'.
  assert (Htot : c ^ 3 * hs
                 + c ^ 3 * trapezoid (zip r (zip_with virial_integrand r w))
                 = c ^ 3 * tot) by (unfold tot; ring).
  rewrite Htot in Hrun'.
  rewrite true_divide_scaled in Hrun'
    by (apply pow_nonzero; lra).
  eexists _, _, hs, tot. split; [exact Hrun|]. split; [exact Hrun'|].
  repeat split; case_decide; by simplify_map_eq.
Qed.

End VirialUnits.

Lemma VirialCoefficient_of_g_witness :
  exists b2 rmin,
    VirialCoefficient sample_N_A [1; 2] (np.negative (np.log [0.5; 1])) (0, 0)
    = Ok b2 /\
    smallest rmin [1; 2] /\
    b2 !! "tot"
    = Some (Number (np.Finite
         (2 * PI / 3 * rmin ^ 3
          + trapezoid
              (zip [1; 2]
                 (zip_with (fun x gx => -2 * PI * (gx - 1) * x ^ 2)
                    [1; 2] [0.5; 1]))))).
Proof.
  apply (VirialCoefficient_of_g sample_N_A [1; 2] [0.5; 1] (0, 0));
    [discriminate|reflexivity|forall_reals].
Defined.

Lemma VirialCoefficient_rescale_witness :
  exists b2 b2' hs tot,
    VirialCoefficient sample_N_A [0.1; 0.2] [0; 0] (0, 0) = Ok b2 /\
    VirialCoefficient sample_N_A (np.scalar_multiply 10 [0.1; 0.2]) [0; 0] (0, 0)
    = Ok b2' /\
    b2 !! "hs" = Some (Number (np.Finite hs)) /\
    b2 !! "tot" = Some (Number (np.Finite tot)) /\
    b2' !! "hs" = Some (Number (np.Finite (10 ^ 3 * hs))) /\
    b2' !! "tot" = Some (Number (np.Finite (10 ^ 3 * tot))) /\
    b2' !! "reduced" = b2 !! "reduced".
Proof.
  apply (VirialCoefficient_rescale sample_N_A 10 [0.1; 0.2] [0; 0] (0, 0));
    [discriminate|reflexivity|lra].
Defined.

(** ** The potentials *)

(** X16.  For a name of [potentiallist] the guess of the command line
    plays no part: the expression and the guess both come from the list,
    and the guess of the list ends with a zero shift. *)
Theorem resolve_builtin_replaces_guess (name : string) :
  is_Some (potentiallist !! name) ->
  exists expression default,
    last default = Some 0 /\
    forall guess, resolve name guess = (expression, Some default).
Proof.
  intros [[expression default] Hlookup]. exists expression, default. split.
  - unfold potentiallist in Hlookup.
    repeat (apply lookup_insert_Some in Hlookup
              as [[_ [= <- <-]]|[_ Hlookup]]; [done|]).
    by rewrite lookup_empty in Hlookup.
  - intros guess. unfold resolve. by rewrite Hlookup.
Qed.

Lemma resolve_builtin_replaces_guess_witness :
  exists expression default,
    last default = Some 0 /\
    forall guess, resolve "dh" guess = (expression, Some default).
Proof.
  apply (resolve_builtin_replaces_guess "dh"). by eexists.
Defined.



Section FitFurther.

Variable minpack :
  potential -> list R -> list R -> list R -> outcome (list R).

(** X18.  With the potential ['dhsinh'] the fit step raises
    [NameError] on every series of positive [g], for every range and
    guess: the first evaluation of the potential fails on the name
    [sinh]. *)
Theorem main_fit_dhsinh_raises_NameError
    (rdf : RadialDistributionFunction.t) (range : R * R) (guess : list R) :
  length (RadialDistributionFunction.r rdf)
  = length (RadialDistributionFunction.g rdf) ->
  Forall (fun x => 0 < x) (RadialDistributionFunction.g rdf) ->
  main_fit pot_dhsinh minpack rdf range guess = Raise "NameError".
Proof.
  intros Hlen _. unfold main_fit.
  by rewrite (slice_runs rdf (fst range) (snd range) Hlen).
Qed.

End FitFurther.

Lemma main_fit_dhsinh_raises_NameError_witness :
  main_fit pot_dhsinh sample_minpack sample_rdf (2, 3) [30; 10; 0]
  = Raise "NameError".
Proof.
  apply (main_fit_dhsinh_raises_NameError sample_minpack sample_rdf (2, 3) [30; 10; 0]).
  - reflexivity.
  - cbn. pose proof (exp_pos (-2)).
    repeat (apply List.Forall_cons; [lra|]). apply List.Forall_nil.
Defined.

(** ** The merge, further *)

Section MergeFurther.

Variable pot : potential.

(** X19.  The merge with the model tail changes the loader object and
    the parameters: [rdf.w] is left shifted (while [rdf.r] and [rdf.g]
    stay), and the parameter vector keeps its length and its entries
    except the last, which is now zero. *)
Theorem splice_updates_state (rdf : RadialDistributionFunction.t)
    (a : list R) (range : R * R) (r0 r1 shift : R) :
  RadialDistributionFunction.r rdf !! 0%nat = Some r0 ->
  RadialDistributionFunction.r rdf !! 1%nat = Some r1 ->
  r0 <> r1 ->
  last a = Some shift ->
  length (RadialDistributionFunction.r rdf)
  = length (RadialDistributionFunction.w rdf) ->
  (forall xs, succeeds (pot xs (py.setitem_last a 0))) ->
  exists rdf' a' curve,
    main_merge pot false rdf a range = Ok (rdf', a', curve) /\
    RadialDistributionFunction.r rdf' = RadialDistributionFunction.r rdf /\
    RadialDistributionFunction.g rdf' = RadialDistributionFunction.g rdf /\
    RadialDistributionFunction.w rdf'
    = np.subtract_scalar (RadialDistributionFunction.w rdf) shift /\
    length a' = length a /\
    last a' = Some 0 /\
    forall i, i <> pred (length a) -> a' !! i = a !! i.
Proof.
  intros H0 H1 Hdr Hlast Hlen Hpot.
  assert (Hstep : r1 - r0 <> 0) by lra.
  pose proof (arange_nonzero (fst range) (4 * snd range) (r1 - r0) Hstep)
    as Htail.
  set (rtail := grid _ _ _) in Htail.
  destruct (Hpot rtail) as [wtail Hw].
  eexists _, _, _. split.
  { by apply (main_merge_splice pot rdf a range r0 r1 shift rtail wtail). }
  cbn. repeat split; try done.
  - unfold py.setitem_last. apply length_insert.
  - unfold py.setitem_last. rewrite last_lookup, length_insert.
    apply list_lookup_insert_eq.
    destruct a; [done|]. cbn. lia.
  - intros i Hi. unfold py.setitem_last.
    by apply list_lookup_insert_ne.
Qed.

(** X20.  The merge raises [IndexError] for an empty parameter vector,
    in both modes, and, with the model tail, for a measured grid of
    fewer than two points. *)
Theorem merge_raises_IndexError (shiftonly : bool)
    (rdf : RadialDistributionFunction.t) (a : list R) (range : R * R) :
  a = [] \/
  (shiftonly = false /\
   (length (RadialDistributionFunction.r rdf) < 2)%nat) ->
  main_merge pot shiftonly rdf a range = Raise "IndexError".
Proof.
  intros Hcase. unfold main_merge. destruct shiftonly.
  - destruct Hcase as [->|[? _]]; done.
  - unfold py.getitem.
    destruct (RadialDistributionFunction.r rdf !! 1%nat) as [r1|] eqn:H1;
      [|done].
    destruct (RadialDistributionFunction.r rdf !! 0%nat) as [r0|] eqn:H0;
      [|done].
    destruct Hcase as [->|[_ Hshort]]; [done|].
    apply lookup_lt_Some in H1. lia.
Qed.

End MergeFurther.

Lemma splice_updates_state_witness :
  exists rdf' a' curve,
    main_merge pot_zero false sample_rdf [1] (2, 3)
    = Ok (rdf', a', curve) /\
    RadialDistributionFunction.r rdf'
    = RadialDistributionFunction.r sample_rdf /\
    RadialDistributionFunction.g rdf'
    = RadialDistributionFunction.g sample_rdf /\
    RadialDistributionFunction.w rdf'
    = np.subtract_scalar (RadialDistributionFunction.w sample_rdf) 1 /\
    length a' = length [1] /\
    last a' = Some 0 /\
    forall i, i <> pred (length [1]) -> a' !! i = [1] !! i.
Proof.
  apply (splice_updates_state pot_zero sample_rdf [1] (2, 3) 1 2 1).
  - reflexivity.
  - reflexivity.
  - lra.
  - reflexivity.
  - reflexivity.
  - apply pot_zero_succeeds.
Defined.

Lemma merge_raises_IndexError_witness :
  main_merge pot_zero true sample_rdf [] (2, 3) = Raise "IndexError".
Proof.
  apply (merge_raises_IndexError pot_zero true sample_rdf [] (2, 3)).
  by left.
Defined.

(** X21.  With the potential ['dh'] the model tail of the merged curve
    is the fitted potential minus its shift: the tail grid is
    [np.arange(rmin_fit, 4 rmax_fit, dr)], and [w] on it is
    [pot(rtail, *a) - a[1]] for the fitted [a], as on the head [w] is
    the measured value minus [a[1]]. *)
Theorem splice_tail_is_shifted_dh (lB z1 z2 : R)
    (rdf : RadialDistributionFunction.t) (range : R * R)
    (r0 r1 a0 a1 : R) :
  RadialDistributionFunction.r rdf !! 0%nat = Some r0 ->
  RadialDistributionFunction.r rdf !! 1%nat = Some r1 ->
  r0 <> r1 ->
  length (RadialDistributionFunction.r rdf)
  = length (RadialDistributionFunction.w rdf) ->
  exists rdf' r w rtail fitted,
    main_merge (pot_dh lB z1 z2) false rdf [a0; a1] range
    = Ok (rdf', [a0; 0], (r, w)) /\
    np.arange (fst range) (4 * snd range) (r1 - r0) = Ok rtail /\
    pot_dh lB z1 z2 rtail [a0; a1] = Ok fitted /\
    r = (fst <$> head_points rdf a1 (fst range)) ++ rtail /\
    w = (snd <$> head_points rdf a1 (fst range))
        ++ np.subtract_scalar fitted a1.
Proof.
  intros H0 H1 Hdr Hlen.
  assert (Hstep : r1 - r0 <> 0) by lra.
  pose proof (arange_nonzero (fst range) (4 * snd range) (r1 - r0) Hstep)
    as Htail.
  set (rtail := grid _ _ _) in Htail.
  eexists _, _, _, rtail, _. split.
  { by apply (main_merge_splice (pot_dh lB z1 z2) rdf [a0; a1] range
                r0 r1 a1 rtail
                (map (fun x => lB * z1 * z2 / x * exp (- x / a0) + 0)
                   rtail)). }
  split; [done|]. split; [done|]. split; [done|].
  f_equal. unfold np.subtract_scalar. rewrite map_map.
  apply map_ext. intros x. lra.
Qed.

Lemma splice_tail_is_shifted_dh_witness :
  exists rdf' r w rtail fitted,
    main_merge (pot_dh 7.1 1 1) false sample_rdf [30; 1] (2, 3)
    = Ok (rdf', [30; 0], (r, w)) /\
    np.arange (fst (2, 3)) (4 * snd (2, 3)) (2 - 1) = Ok rtail /\
    pot_dh 7.1 1 1 rtail [30; 1] = Ok fitted /\
    r = (fst <$> head_points sample_rdf 1 (fst (2, 3))) ++ rtail /\
    w = (snd <$> head_points sample_rdf 1 (fst (2, 3)))
        ++ np.subtract_scalar fitted 1.
Proof.
  apply (splice_tail_is_shifted_dh 7.1 1 1 sample_rdf (2, 3) 1 2 30 1);
    [reflexivity|reflexivity|lra|reflexivity].
Defined.

Lemma arange_empty (start stop step : R) :
  0 < step -> stop <= start -> np.arange start stop step = Ok [].
Proof.
  intros Hstep Hle. rewrite arange_nonzero by lra.
  assert (Hq : (stop - start) / step <= 0).
  { apply Rmult_le_reg_r with step; [done|].
    unfold Rdiv. rewrite Rmult_assoc, Rinv_l by lra. lra. }
  pose proof (ceil_bounds ((stop - start) / step)) as Hb.
  assert (Hc : (np.ceil ((stop - start) / step) < 1)%Z).
  { apply lt_IZR. lra. }
  by replace (Z.to_nat (np.ceil ((stop - start) / step))) with 0%nat by lia.
Qed.

Lemma filter_fst_zip_prop (P : R -> Prop) `{!forall x, Decision (P x)}
    (xs ys : list R) :
  length xs = length ys ->
  fst <$> filter (fun p : R * R => P (fst p)) (zip xs ys) = filter P xs.
Proof.
  revert ys. induction xs as [|x xs IH]; intros [|y ys] Hlen; try done.
  injection Hlen as Hlen. cbn [zip_with].
  destruct (decide (P x)).
  - rewrite !filter_cons_True by done. cbn. by rewrite IH.
  - rewrite !filter_cons_False by done. by apply IH.
Qed.

Lemma head_grid (rdf : RadialDistributionFunction.t) (shift rmin : R) :
  length (RadialDistributionFunction.r rdf)
  = length (RadialDistributionFunction.w rdf) ->
  fst <$> head_points rdf shift rmin
  = filter (fun x => x <= rmin) (RadialDistributionFunction.r rdf).
Proof.
  intros Hlen. unfold head_points, shifted_points.
  apply (@filter_fst_zip_prop (fun x => x <= rmin)
           (fun x => Rle_decision x rmin)).
  by rewrite length_map.
Qed.

Lemma filter_sorted_ends (rmin : R) (r : list R) :
  nondecreasing r ->
  rmin ∈ r ->
  exists l, filter (fun x => x <= rmin) r = l ++ [rmin].
Proof.
  unfold nondecreasing. intros Hsorted.
  induction Hsorted as [|x r Hsorted IH Hall]; intros Hin.
  { by apply elem_of_nil in Hin. }
  rewrite Forall_forall in Hall.
  destruct (decide (rmin ∈ r)) as [Hr|Hr].
  - destruct (IH Hr) as [l Hl].
    rewrite filter_cons_True by (by apply Hall).
    exists (x :: l). by rewrite Hl.
  - apply elem_of_cons in Hin as [->|Hin]; [|done].
    rewrite filter_cons_True by lra.
    rewrite (filter_none _ r); [by exists []|].
    intros y Hy Hle. apply Hr.
    assert (y = x) as -> by (specialize (Hall y Hy); cbn in Hall; lra).
    done.
Qed.

Lemma sorted_first_smallest (x : R) (l : list R) :
  nondecreasing (x :: l) -> smallest x (x :: l).
Proof.
  unfold nondecreasing. intros Hsorted.
  apply StronglySorted_cons in Hsorted as [Hall _].
  split; [left|]. apply Forall_cons. split; [lra|done].
Qed.

Section SpliceFurther.

Variable pot : potential.

(** X22.  When [4 rmax_fit <= rmin_fit] the model tail is empty and the
    merged curve is the head alone: the shifted measured points at or
    below [rmin_fit]. *)
Theorem splice_empty_tail (rdf : RadialDistributionFunction.t)
    (a : list R) (range : R * R) (r0 r1 shift : R) :
  RadialDistributionFunction.r rdf !! 0%nat = Some r0 ->
  RadialDistributionFunction.r rdf !! 1%nat = Some r1 ->
  r0 < r1 ->
  last a = Some shift ->
  length (RadialDistributionFunction.r rdf)
  = length (RadialDistributionFunction.w rdf) ->
  4 * snd range <= fst range ->
  pot [] (py.setitem_last a 0) = Ok [] ->
  exists rdf' a' r w,
    main_merge pot false rdf a range = Ok (rdf', a', (r, w)) /\
    zip r w = head_points rdf shift (fst range).
Proof.
  intros H0 H1 Hdr Hlast Hlen Hrange Hpot.
  eexists _, _, _, _. split.
  { apply (main_merge_splice pot rdf a range r0 r1 shift [] []);
      try done.
    apply arange_empty; lra. }
  rewrite !app_nil_r. apply zip_fst_snd.
Qed.

(** X23.  When [rmin_fit] is one of the measured [r] (the grid never
    decreasing, [dr > 0], [rmin_fit < 4 rmax_fit]), the merged grid holds
    [rmin_fit] twice in a row: as the last point of the head and as the
    first of the tail. *)
Theorem splice_repeats_boundary (rdf : RadialDistributionFunction.t)
    (a : list R) (range : R * R) (r0 r1 shift : R) :
  nondecreasing (RadialDistributionFunction.r rdf) ->
  RadialDistributionFunction.r rdf !! 0%nat = Some r0 ->
  RadialDistributionFunction.r rdf !! 1%nat = Some r1 ->
  r0 < r1 ->
  last a = Some shift ->
  length (RadialDistributionFunction.r rdf)
  = length (RadialDistributionFunction.w rdf) ->
  fst range < 4 * snd range ->
  (forall xs, succeeds (pot xs (py.setitem_last a 0))) ->
  fst range ∈ RadialDistributionFunction.r rdf ->
  exists rdf' a' r w before after,
    main_merge pot false rdf a range = Ok (rdf', a', (r, w)) /\
    r = before ++ [fst range; fst range] ++ after.
Proof.
  intros Hsorted H0 H1 Hdr Hlast Hlen Hrange Hpot Hin.
  destruct (arange_forward (fst range) (4 * snd range) (r1 - r0)
              ltac:(lra) Hrange) as (n & Htail & _ & _).
  destruct (Hpot (grid (fst range) (r1 - r0) (S n))) as [wtail Hw].
  pose proof (main_merge_splice pot rdf a range r0 r1 shift _ wtail
                H0 H1 Hlast Hlen Htail Hw) as Hmerge.
  destruct (filter_sorted_ends (fst range) _ Hsorted Hin) as [before Hb].
  rewrite (head_grid rdf shift (fst range) Hlen), Hb in Hmerge.
  eexists _, _, _, _, before,
    (map (fun i => fst range + INR i * (r1 - r0)) (seq 1 n)).
  split; [exact Hmerge|].
  rewrite <- app_assoc. f_equal. unfold grid. cbn [seq map app].
  do 2 f_equal. cbn. lra.
Qed.

End SpliceFurther.

Lemma splice_empty_tail_witness :
  exists rdf' a' r w,
    main_merge pot_zero false sample_rdf [1] (8, 2)
    = Ok (rdf', a', (r, w)) /\
    zip r w = head_points sample_rdf 1 (fst (8, 2)).
Proof.
  apply (splice_empty_tail pot_zero sample_rdf [1] (8, 2) 1 2 1).
  - reflexivity.
  - reflexivity.
  - lra.
  - reflexivity.
  - reflexivity.
  - cbn. lra.
  - reflexivity.
Defined.

Lemma splice_repeats_boundary_witness :
  exists rdf' a' r w before after,
    main_merge pot_zero false sample_rdf [1] (2, 3)
    = Ok (rdf', a', (r, w)) /\
    r = before ++ [fst (2, 3); fst (2, 3)] ++ after.
Proof.
  apply (splice_repeats_boundary pot_zero sample_rdf [1] (2, 3) 1 2 1).
  - apply sample_grid_nondecreasing.
  - reflexivity.
  - reflexivity.
  - lra.
  - reflexivity.
  - reflexivity.
  - cbn. lra.
  - apply pot_zero_succeeds.
  - cbn. right. left.
Defined.

Section SpliceVirial.

Variable N_A : R.
Variable pot : potential.

(** X24.  The merged curve is an input that [VirialCoefficient] accepts:
    for a measured grid that never decreases, [dr > 0],
    [rmin_fit < 4 rmax_fit] and a potential that gives one value per
    distance, the merge yields [r] and [w] of one length, the virial
    coefficient is computed, and its hard-sphere distance is the smaller
    of the first measured [r] and [rmin_fit]. *)
Theorem splice_feeds_VirialCoefficient
    (rdf : RadialDistributionFunction.t) (a : list R) (range : R * R)
    (mw : R * R) (r0 r1 shift : R) :
  nondecreasing (RadialDistributionFunction.r rdf) ->
  RadialDistributionFunction.r rdf !! 0%nat = Some r0 ->
  RadialDistributionFunction.r rdf !! 1%nat = Some r1 ->
  r0 < r1 ->
  last a = Some shift ->
  length (RadialDistributionFunction.r rdf)
  = length (RadialDistributionFunction.w rdf) ->
  fst range < 4 * snd range ->
  (forall xs, exists ys,
      pot xs (py.setitem_last a 0) = Ok ys /\ length ys = length xs) ->
  exists rdf' a' r w b2,
    main_merge pot false rdf a range = Ok (rdf', a', (r, w)) /\
    length r = length w /\
    VirialCoefficient N_A r w mw = Ok b2 /\
    b2 !! "hs"
    = Some (Number (np.Finite (2 * PI / 3 * Rmin r0 (fst range) ^ 3))).
Proof.
  intros Hsorted H0 H1 Hdr Hlast Hlen Hrange Hpot.
  destruct (arange_forward (fst range) (4 * snd range) (r1 - r0)
              ltac:(lra) Hrange) as (n & Htail & Hin & _).
  set (rtail := grid (fst range) (r1 - r0) (S n)) in *.
  destruct (Hpot rtail) as (wtail & Hw & Hlenw).
  pose proof (main_merge_splice pot rdf a range r0 r1 shift rtail wtail
                H0 H1 Hlast Hlen Htail Hw) as Hmerge.
  set (head := head_points rdf shift (fst range)) in *.
  assert (Hlens : length ((fst <$> head) ++ rtail)
                  = length ((snd <$> head) ++ wtail)).
  { rewrite !length_app, !length_fmap. lia. }
  assert (Hout : nondecreasing ((fst <$> head) ++ rtail)).
  { pose proof (head_points_below rdf shift (fst range)) as Hbelow.
    rewrite Forall_forall in Hbelow, Hin.
    apply StronglySorted_app_2.
    - intros x1 x2 Hx1 Hx2. specialize (Hbelow x1 Hx1).
      specialize (Hin x2 Hx2). cbn in *. lra.
    - by apply head_points_sorted.
    - apply grid_nondecreasing. lra. }
  assert (Hfirst : exists rest,
            (fst <$> head) ++ rtail = Rmin r0 (fst range) :: rest).
  { unfold head. rewrite (head_grid rdf shift (fst range) Hlen).
    destruct (RadialDistributionFunction.r rdf) as [|x r'] eqn:Hr;
      [done|].
    injection H0 as ->.
    destruct (decide (r0 <= fst range)) as [Hle|Hgt].
    - rewrite filter_cons_True by done. rewrite Rmin_left by done.
      by eexists.
    - rewrite filter_cons_False by done.
      rewrite (filter_none _ r').
      + rewrite Rmin_right by lra. unfold rtail, grid. cbn [seq map app].
        eexists. f_equal. cbn. lra.
      + unfold nondecreasing in Hsorted.
        apply StronglySorted_cons in Hsorted as [Hall _].
        rewrite Forall_forall in Hall.
        intros y Hy. specialize (Hall y Hy). cbn in Hall. lra. }
  destruct Hfirst as [rest Hfirst].
  assert (Hmin : smallest (Rmin r0 (fst range)) ((fst <$> head) ++ rtail)).
  { rewrite Hfirst. apply sorted_first_smallest. by rewrite <- Hfirst. }
  destruct (VirialCoefficient_runs N_A _ _ mw _ Hlens Hmin) as [rmax Hrun].
  cbn zeta in Hrun.
  eexists _, _, _, _, _. split; [exact Hmerge|]. split; [exact Hlens|].
  split; [exact Hrun|]. case_decide; by simplify_map_eq.
Qed.

End SpliceVirial.

Lemma splice_feeds_VirialCoefficient_witness :
  exists rdf' a' r w b2,
    main_merge pot_zero false sample_rdf [1] (2, 3)
    = Ok (rdf', a', (r, w)) /\
    length r = length w /\
    VirialCoefficient sample_N_A r w (0, 0) = Ok b2 /\
    b2 !! "hs"
    = Some (Number (np.Finite (2 * PI / 3 * Rmin 1 (fst (2, 3)) ^ 3))).
Proof.
  apply (splice_feeds_VirialCoefficient sample_N_A pot_zero sample_rdf [1]
           (2, 3) (0, 0) 1 2 1).
  - apply sample_grid_nondecreasing.
  - reflexivity.
  - reflexivity.
  - lra.
  - reflexivity.
  - reflexivity.
  - cbn. lra.
  - intros xs. apply (pot_zero_elementwise 0 [] xs).
Defined.

(** ** The table written and the whole run *)

(** X25.  For a non-empty [outfile] and a curve with as many [w] as [r],
    the table written has one row per point of the curve, and the row of
    a point is [r], [w] and [exp(-w)]. *)
Theorem main_save_rows (outfile : string) (r w : list R) :
  outfile <> "" ->
  length r = length w ->
  exists rows,
    main_save outfile r w = Ok (Some rows) /\
    length rows = length r /\
    forall i ri wi,
      r !! i = Some ri -> w !! i = Some wi ->
      rows !! i = Some [ri; wi; exp (- wi)].
Proof.
  intros Hout Hlen. unfold main_save, np.transpose3.
  rewrite decide_False by done.
  assert (Hlen' : length w = length (np.exp (np.negative w))).
  { unfold np.exp, np.negative. by rewrite !length_map. }
  rewrite decide_True by done. cbn [mbind outcome_bind].
  eexists. split; [done|]. split.
  - rewrite !length_zip_with. lia.
  - intros i ri wi Hr Hw. unfold np.exp, np.negative.
    rewrite map_map. change (map ?f ?l) with (f <$> l).
    by rewrite !lookup_zip_with, Hr, Hw, list_lookup_fmap, Hw.
Qed.

Lemma main_save_rows_witness :
  exists rows,
    main_save "out.dat" [1; 2] [0; 0.5] = Ok (Some rows) /\
    length rows = length [1; 2] /\
    forall i ri wi,
      [1; 2] !! i = Some ri -> [0; 0.5] !! i = Some wi ->
      rows !! i = Some [ri; wi; exp (- wi)].
Proof.
  apply (main_save_rows "out.dat" [1; 2] [0; 0.5]);
    [discriminate|reflexivity].
Defined.

Section MainRun.

Variable N_A : R.
Variable fs : filesystem.
Variable exec_def : R -> R * R -> string -> outcome potential.
Variable minpack :
  potential -> list R -> list R -> list R -> outcome (list R).

(** X26.  When the input file does not exist (and the run is not a
    listing, and the expression of the potential compiles), the program
    ends with the message of its own check, ["Error: File ... does not
    exist."]; the loader, whose message covers the same case, is not
    reached. *)
Theorem main_missing_file (args : arguments) (pot : potential) :
  arg_show args = false ->
  exec_def (arg_bjerrum args) (arg_z args)
    (fst (resolve (arg_pot args) (arg_guess args))) = Ok pot ->
  fs (arg_infile args) = None ->
  main N_A fs exec_def minpack args
  = Exit ("Error: File " +:+ arg_infile args +:+ " does not exist.").
Proof.
  intros Hshow Hexec Hfile. unfold main. rewrite Hshow.
  destruct (resolve (arg_pot args) (arg_guess args)) as [expression guess].
  cbn in Hexec. rewrite Hexec. cbn.
  unfold main_load. by rewrite Hfile.
Qed.

(** X27.  A run in shift-only mode on a two-column table, without unit
    conversion or volume normalisation: when the fit returns parameters
    [a] with last entry [shift], the program ends normally; the curve is
    the measured grid with [w - shift]; the loader object is unchanged;
    and the table written has, for every row of the input with [g > 0],
    the row [r], [-ln g - shift], [g * exp(shift)]. *)
Theorem main_shiftonly_run (args : arguments) (nrows : nat)
    (entry : nat -> nat -> R) (pot : potential) (guess a : list R)
    (shift : R) :
  let rdf :=
    RadialDistributionFunction.mk
      (map (fun i => entry i 0%nat) (seq 0 nrows))
      (map (fun i => entry i 1%nat) (seq 0 nrows))
      (np.negative (np.log (map (fun i => entry i 1%nat) (seq 0 nrows)))) in
  arg_show args = false ->
  resolve (arg_pot args) (arg_guess args)
  = (fst (resolve (arg_pot args) (arg_guess args)), Some guess) ->
  exec_def (arg_bjerrum args) (arg_z args)
    (fst (resolve (arg_pot args) (arg_guess args))) = Ok pot ->
  fs (arg_infile args) = Some (Ok (np.Array2 nrows 2 entry)) ->
  arg_nm args = false ->
  arg_norm args = "no" ->
  (0 < nrows)%nat ->
  main_fit pot minpack rdf (arg_range args) guess = Ok a ->
  last a = Some shift ->
  arg_shiftonly args = true ->
  arg_outfile args <> "" ->
  exists B2 rows,
    main N_A fs exec_def minpack args
    = Ok (Finished rdf a
            (RadialDistributionFunction.r rdf,
             np.subtract_scalar (RadialDistributionFunction.w rdf) shift)
            B2 (Some rows)) /\
    length rows = nrows /\
    forall i, (i < nrows)%nat -> 0 < entry i 1%nat ->
      rows !! i
      = Some [entry i 0%nat; - ln (entry i 1%nat) - shift;
              entry i 1%nat * exp shift].
Proof.
  intros rdf Hshow Hresolve Hexec Hfile Hnm Hnorm Hrows Hfit Hlast Hso Hout.
  set (r := RadialDistributionFunction.r rdf).
  set (w := np.subtract_scalar (RadialDistributionFunction.w rdf) shift).
  assert (Hlen : length r = length w).
  { unfold r, w, rdf, np.subtract_scalar, np.negative, np.log. cbn.
    by rewrite !length_map. }
  assert (Hne : r <> []).
  { unfold r, rdf. cbn. destruct nrows; [lia|done]. }
  destruct (smallest_exists r Hne) as [rmin Hmin].
  destruct (VirialCoefficient_runs N_A r w (arg_mw args) rmin Hlen Hmin)
    as [rmax Hrun]. cbn zeta in Hrun.
  destruct (main_save_rows (arg_outfile args) r w Hout Hlen)
    as (rows & Hsave & Hlen_rows & Hrow).
  eexists _, rows. split; [|split].
  - unfold main. rewrite Hshow, Hresolve, Hexec. cbn.
    unfold main_load. rewrite Hfile.
    assert (Hinit : RadialDistributionFunction.init fs (arg_infile args)
                    = Ok rdf).
    { apply init_succeeds_iff. by exists nrows, entry. }
    rewrite Hinit. cbn.
    unfold main_units. rewrite Hnm, Hnorm.
    rewrite decide_False by done. cbn [mbind outcome_bind].
    rewrite decide_False by done. cbn [mbind outcome_bind].
    rewrite Hfit. cbn [mbind outcome_bind]. rewrite Hso.
    unfold main_merge. rewrite (getitem_last_Some a shift Hlast).
    cbn [mbind outcome_bind]. fold r w.
    rewrite Hrun. cbn [mbind outcome_bind].
    rewrite Hsave. by cbn [mbind outcome_bind].
  - rewrite Hlen_rows. unfold r, rdf. cbn. by rewrite length_map, length_seq.
  - intros i Hi Hg.
    assert (Hseq : seq 0 nrows !! i = Some i).
    { rewrite lookup_seq. split; [done|lia]. }
    rewrite (Hrow i (entry i 0%nat) (- ln (entry i 1%nat) - shift)).
    + do 4 f_equal.
      replace (- (- ln (entry i 1%nat) - shift))
        with (ln (entry i 1%nat) + shift) by lra.
      by rewrite exp_plus, exp_ln.
    + unfold r, rdf. cbn. change (map ?f ?l) with (f <$> l).
      by rewrite list_lookup_fmap, Hseq.
    + unfold w, rdf, np.subtract_scalar, np.negative, np.log. cbn.
      rewrite !map_map. change (map ?f ?l) with (f <$> l).
      by rewrite list_lookup_fmap, Hseq.
Qed.

End MainRun.

Lemma sample_resolve :
  resolve "zero" None = ("r*0 + a[0]", Some [0]).
Proof. reflexivity. Qed.

Lemma main_missing_file_witness :
  main sample_N_A sample_fs sample_exec sample_minpack sample_args_missing
  = Exit ("Error: File " +:+ "missing.dat" +:+ " does not exist.").
Proof.
  apply (main_missing_file sample_N_A sample_fs sample_exec sample_minpack
           sample_args_missing pot_zero).
  - reflexivity.
  - cbn [sample_args_missing arg_pot arg_guess arg_bjerrum arg_z].
    rewrite sample_resolve. unfold sample_exec. cbn [fst].
    by rewrite decide_True.
  - cbn [sample_args_missing arg_infile]. unfold sample_fs.
    by rewrite decide_False.
Defined.

Lemma sample_fit :
  main_fit pot_zero sample_minpack
    (RadialDistributionFunction.mk
       (map (fun i => nth 0 (nth i [[1; 1]; [2; 1]; [3; exp (-2)]; [4; 1]]
                               []) 0) (seq 0 4))
       (map (fun i => nth 1 (nth i [[1; 1]; [2; 1]; [3; exp (-2)]; [4; 1]]
                               []) 0) (seq 0 4))
       (np.negative
          (np.log
             (map (fun i => nth 1 (nth i [[1; 1]; [2; 1]; [3; exp (-2)];
                                          [4; 1]] []) 0) (seq 0 4)))))
    (2, 3) [0]
  = Ok [0].
Proof.
  unfold main_fit. rewrite slice_runs by done. cbn zeta.
  cbn [RadialDistributionFunction.r RadialDistributionFunction.g
       map seq nth zip_with fst snd].
  unfold points_within.
  rewrite filter_cons_False by (cbn; lra).
  rewrite filter_cons_True by (cbn; lra).
  rewrite filter_cons_True by (cbn; lra).
  rewrite filter_cons_False by (cbn; lra).
  rewrite filter_nil. cbn [fmap list_fmap fst snd mbind outcome_bind].
  unfold curve_fit, pot_zero. cbn [py.getitem lookup list_lookup mbind
                                    outcome_bind map].
  unfold np.broadcast, np.negative, np.log. cbn [map length].
  rewrite decide_True by done. cbn [mbind outcome_bind zip_with length].
  by rewrite decide_False by lia.
Qed.

Lemma main_shiftonly_run_witness :
  exists rdf curve B2 rows,
    main sample_N_A sample_fs sample_exec sample_minpack sample_args
    = Ok (Finished rdf [0] curve B2 (Some rows)) /\
    length rows = 4%nat.
Proof.
  destruct (main_shiftonly_run sample_N_A sample_fs sample_exec
              sample_minpack sample_args 4
              (fun i j => nth j (nth i [[1; 1]; [2; 1]; [3; exp (-2)];
                                         [4; 1]] []) 0)
              pot_zero [0] [0] 0)
    as (B2 & rows & Hmain & Hrows & _).
  - reflexivity.
  - reflexivity.
  - cbn [sample_args arg_pot arg_guess arg_bjerrum arg_z].
    rewrite sample_resolve. unfold sample_exec. cbn [fst].
    by rewrite decide_True.
  - cbn [sample_args arg_infile]. unfold sample_fs.
    by rewrite decide_True.
  - reflexivity.
  - reflexivity.
  - lia.
  - apply sample_fit.
  - reflexivity.
  - reflexivity.
  - discriminate.
  - eexists _, _, B2, rows. split; [exact Hmain|exact Hrows].
Defined.
